(** * Snake autopilot: shallow embedding of [utils/pathfinding.ts]

    The navigation engine of the snake game:
    - [getNeighbors], [getPath] (breadth-first pathfinder),
    - [getAccessibleAreaSize] (flood-fill counter),
    - [getNextAutoMove] (the three-strategy decision policy).

    Coordinates are integers ([Z]).  The source keys its [Set<string>]s with
    [pKey p = `${p.x},${p.y}`]; on integer coordinates that string determines
    the pair [(p.x, p.y)] and conversely, so a key is modelled as that pair and
    a [Set<string>] as a [gset (Z * Z)]. *)

From Stdlib Require Import ZArith List Lia Sorted.
From stdpp Require Import base decidable option list numbers sets gmap.

Set Warnings "-clear-no-such-hyp".

Open Scope Z_scope.

(** ** types.ts *)

Inductive Direction := UP | DOWN | LEFT | RIGHT.

Record Point := mkPoint { px : Z; py : Z }.

Global Instance Direction_eq_dec : EqDecision Direction.
Proof. solve_decision. Defined.

Global Instance Point_eq_dec : EqDecision Point.
Proof. solve_decision. Defined.

(** ** constants.ts *)

Definition BOARD_WIDTH : Z := 25.
Definition BOARD_HEIGHT : Z := 25.

(** ** Results of JavaScript computations *)

(** A call either returns a value or throws a [TypeError] (a property read
    on [undefined]). *)
Inductive result (A : Type) :=
| Ok (a : A)
| TypeError.
Arguments Ok {A} a.
Arguments TypeError {A}.

Global Instance result_bind : MBind result := fun A B k r =>
  match r with
  | Ok a => k a
  | TypeError => TypeError
  end.

(** A [while] loop run with a bound on its number of iterations. *)
Inductive loop_result (A : Type) :=
| Done (a : A)
| OutOfFuel.
Arguments Done {A} a.
Arguments OutOfFuel {A}.

(** ** utils/pathfinding.ts: helpers *)

Abbreviation key := (Z * Z)%type.

Definition pKey (p : Point) : key := (px p, py p).

Definition isSamePoint (p1 p2 : Point) : bool :=
  (px p1 =? px p2) && (py p1 =? py p2).

(** The bounds test that guards every neighbour, negated: the source writes
    [x < 0 || x >= BOARD_WIDTH || y < 0 || y >= BOARD_HEIGHT] and rejects. *)
Definition outOfBounds (x y : Z) : bool :=
  (x <? 0) || (x >=? BOARD_WIDTH) || (y <? 0) || (y >=? BOARD_HEIGHT).

(** The unit step of a direction. *)
Definition move (p : Point) (d : Direction) : Point :=
  match d with
  | UP => mkPoint (px p) (py p - 1)
  | DOWN => mkPoint (px p) (py p + 1)
  | LEFT => mkPoint (px p - 1) (py p)
  | RIGHT => mkPoint (px p + 1) (py p)
  end.

Definition getNeighbors (head : Point) (obstacleSet : gset key)
  : list (Point * Direction) :=
  let moves :=
    [ (mkPoint (px head) (py head - 1), UP);
      (mkPoint (px head) (py head + 1), DOWN);
      (mkPoint (px head - 1) (py head), LEFT);
      (mkPoint (px head + 1) (py head), RIGHT) ] in
  List.filter
    (fun m =>
       if outOfBounds (px (fst m)) (py (fst m)) then false
       else if bool_decide (pKey (fst m) ∈ obstacleSet) then false
       else true)
    moves.

(** ** getPath: breadth-first search *)

(** The body of the [for] loop over the neighbours of the dequeued point:
    the state is the queue and the visited set. *)
Definition getPath_visit (path : list Direction)
    (st : list (Point * list Direction) * gset key)
    (n : Point * Direction) : list (Point * list Direction) * gset key :=
  let '(queue, visited) := st in
  let '(nextPoint, direction) := n in
  let k := pKey nextPoint in
  if bool_decide (k ∈ visited) then (queue, visited)
  else (queue ++ [(nextPoint, path ++ [direction])], {[k]} ∪ visited).

Fixpoint getPath_loop (fuel : nat) (target : Point) (obstacleSet : gset key)
    (queue : list (Point * list Direction)) (visited : gset key)
  : loop_result (option (list Direction)) :=
  match queue with
  | [] => Done None
  | (point, path) :: rest =>
      match fuel with
      | O => OutOfFuel
      | S fuel' =>
          if isSamePoint point target then Done (Some path)
          else
            let neighbors := getNeighbors point obstacleSet in
            let '(queue', visited') :=
              fold_left (getPath_visit path) neighbors (rest, visited) in
            getPath_loop fuel' target obstacleSet queue' visited'
      end
  end.

(** Every in-bounds key of the board, row after row. *)
Definition boardKeys : list key :=
  x ← seqZ 0 BOARD_WIDTH; y ← seqZ 0 BOARD_HEIGHT; [(x, y)].

(** Each iteration dequeues one point, and a point is enqueued only when it
    is a board cell not visited before: beyond the start, the loops below run
    at most once per board cell. *)
Definition loopFuel : nat := S (length boardKeys).

Definition getPath (start target : Point) (obstacleSet : gset key)
  : option (list Direction) :=
  match getPath_loop loopFuel target obstacleSet [(start, [])] {[pKey start]} with
  | Done r => r
  | OutOfFuel => None
  end.

(** ** getAccessibleAreaSize: flood fill *)

Definition area_visit (obstacleSet : gset key)
    (st : list Point * gset key) (n : Point) : list Point * gset key :=
  let '(queue, visited) := st in
  if outOfBounds (px n) (py n) then (queue, visited)
  else
    let k := pKey n in
    if negb (bool_decide (k ∈ visited)) && negb (bool_decide (k ∈ obstacleSet))
    then (queue ++ [n], {[k]} ∪ visited)
    else (queue, visited).

Fixpoint area_loop (fuel : nat) (obstacleSet : gset key)
    (queue : list Point) (visited : gset key) (count : Z) : loop_result Z :=
  match queue with
  | [] => Done count
  | current :: rest =>
      match fuel with
      | O => OutOfFuel
      | S fuel' =>
          let count := count + 1 in
          let nexts :=
            [ mkPoint (px current) (py current - 1);
              mkPoint (px current) (py current + 1);
              mkPoint (px current - 1) (py current);
              mkPoint (px current + 1) (py current) ] in
          let '(queue', visited') :=
            fold_left (area_visit obstacleSet) nexts (rest, visited) in
          area_loop fuel' obstacleSet queue' visited' count
      end
  end.

Definition getAccessibleAreaSize (start : Point) (obstacleSet : gset key) : Z :=
  match area_loop loopFuel obstacleSet [start] {[pKey start]} 0 with
  | Done count => count
  | OutOfFuel => 0
  end.

(** ** getNextAutoMove: the decision policy *)

(** [arr[i]]: reading past the end gives [undefined], and every such read in
    this file is followed at once by a property access, which throws. *)
Definition index {A} (arr : list A) (i : nat) : result A :=
  match arr !! i with
  | Some v => Ok v
  | None => TypeError
  end.

(** [arr.slice(0, -1)]: all but the last element. *)
Definition slice_0_m1 {A} (arr : list A) : list A :=
  take (length arr - 1)%nat arr.

(** [arr.sort(cmp)]: the sort is stable (ECMAScript 2019), so for a
    consistent comparator the result is the one of a stable insertion sort. *)
Fixpoint sort_insert {A} (cmp : A -> A -> Z) (a : A) (sorted : list A) : list A :=
  match sorted with
  | [] => [a]
  | b :: rest =>
      if cmp a b <=? 0 then a :: b :: rest else b :: sort_insert cmp a rest
  end.

Definition Array_sort {A} (cmp : A -> A -> Z) (arr : list A) : list A :=
  foldr (sort_insert cmp) [] arr.

Record Move := mkMove { dir : Direction; mx : Z; my : Z }.

Record SafeMove := mkSafeMove {
  sdir : Direction;
  distToFood : option Z;
  space : Z
}.

Global Instance Move_eq_dec : EqDecision Move.
Proof. solve_decision. Defined.

Definition possibleMoves (head : Point) : list Move :=
  [ mkMove UP (px head) (py head - 1);
    mkMove DOWN (px head) (py head + 1);
    mkMove LEFT (px head - 1) (py head);
    mkMove RIGHT (px head + 1) (py head) ].

Definition neckOf (snake : list Point) : option Point :=
  if bool_decide (1 < length snake)%nat then snake !! 1%nat else None.

(** Step 1: the moves that hit no wall, no neck and no body cell but the tail. *)
Definition validMovesOf (snake : list Point) (head : Point) : list Move :=
  let neck := neckOf snake in
  List.filter
    (fun m =>
       if outOfBounds (mx m) (my m) then false
       else if match neck with
               | Some n => (mx m =? px n) && (my m =? py n)
               | None => false
               end then false
       else
         let isBody :=
           existsb (fun p => (px p =? mx m) && (py p =? my m)) (slice_0_m1 snake) in
         if isBody then false else true)
    (possibleMoves head).

Definition willEatAt (nextHead food : Point) : bool :=
  (px nextHead =? px food) && (py nextHead =? py food).

(** The virtual snake after the step to [nextHead]: it grows when the step
    eats the food and drops its tail otherwise. *)
Definition virtualSnakeOf (snake : list Point) (food nextHead : Point) : list Point :=
  if willEatAt nextHead food then nextHead :: snake
  else nextHead :: slice_0_m1 snake.

Definition virtualTailOf (virtualSnake : list Point) : result Point :=
  index virtualSnake (length virtualSnake - 1)%nat.

Definition obstaclesArrOf (virtualSnake : list Point) : list Point :=
  slice_0_m1 virtualSnake.

Definition setOfPoints (arr : list Point) : gset key :=
  list_to_set (pKey <$> arr).

(** Step 2: the loop that collects the safe moves. *)
Fixpoint safeMoves_loop (snake : list Point) (food : Point)
    (moves : list Move) (safeMoves : list SafeMove) : result (list SafeMove) :=
  match moves with
  | [] => Ok safeMoves
  | move :: rest =>
      let nextHead := mkPoint (mx move) (my move) in
      let virtualSnake := virtualSnakeOf snake food nextHead in
      virtualTail ← virtualTailOf virtualSnake;
      let obstaclesArr := obstaclesArrOf virtualSnake in
      let obstacleSet := setOfPoints obstaclesArr in
      let pathToTail := getPath nextHead virtualTail obstacleSet in
      match pathToTail with
      | Some _ =>
          let pathToFood := getPath nextHead food obstacleSet in
          safeMoves_loop snake food rest
            (safeMoves ++
               [ mkSafeMove (dir move)
                   (match pathToFood with
                    | Some p => Some (Z.of_nat (length p))
                    | None => None
                    end)
                   0 ])
      | None => safeMoves_loop snake food rest safeMoves
      end
  end.

(** Strategy B: the loop that keeps the safe move with the largest space. *)
Fixpoint strategyB_loop (snake : list Point) (food : Point)
    (validMoves : list Move) (safeMoves : list SafeMove)
    (bestDir : Direction) (maxSpace : Z) : result Direction :=
  match safeMoves with
  | [] => Ok bestDir
  | sm :: rest =>
      nextHead ← match List.find (fun vm => bool_decide (dir vm = sdir sm)) validMoves with
                 | Some vm => Ok vm
                 | None => TypeError
                 end;
      let willEat := willEatAt (mkPoint (mx nextHead) (my nextHead)) food in
      let virtualSnake :=
        if willEat then mkPoint (mx nextHead) (my nextHead) :: snake
        else mkPoint (mx nextHead) (my nextHead) :: slice_0_m1 snake in
      let obsSet := setOfPoints virtualSnake in
      let space := getAccessibleAreaSize (mkPoint (mx nextHead) (my nextHead)) obsSet in
      if space >? maxSpace
      then strategyB_loop snake food validMoves rest (sdir sm) space
      else strategyB_loop snake food validMoves rest bestDir maxSpace
  end.

(** Strategy C: the emergency loop over all valid moves. *)
Fixpoint strategyC_loop (snake : list Point) (moves : list Move)
    (bestEmergencyDir : option Direction) (maxEmergencySpace : Z)
  : option Direction :=
  match moves with
  | [] => bestEmergencyDir
  | move :: rest =>
      let nextHead := mkPoint (mx move) (my move) in
      let obsSet := setOfPoints (slice_0_m1 snake) in
      let space := getAccessibleAreaSize nextHead obsSet in
      if space >? maxEmergencySpace
      then strategyC_loop snake rest (Some (dir move)) space
      else strategyC_loop snake rest bestEmergencyDir maxEmergencySpace
  end.

Definition getNextAutoMove (snake : list Point) (food : Point)
  : result (option Direction) :=
  head ← index snake 0;
  let validMoves := validMovesOf snake head in
  if (length validMoves =? 0)%nat then Ok None
  else
    safeMoves ← safeMoves_loop snake food validMoves [];
    let movesWithFood :=
      List.filter (fun m => bool_decide (distToFood m ≠ None)) safeMoves in
    if (0 <? length movesWithFood)%nat then
      let sorted :=
        Array_sort
          (fun a b => default 0 (distToFood a) - default 0 (distToFood b))
          movesWithFood in
      m ← index sorted 0;
      Ok (Some (sdir m))
    else if (0 <? length safeMoves)%nat then
      first ← index safeMoves 0;
      bestDir ← strategyB_loop snake food validMoves safeMoves (sdir first) (-1);
      Ok (Some bestDir)
    else
      match strategyC_loop snake validMoves None (-1) with
      | Some d => Ok (Some d)
      | None => first ← index validMoves 0; Ok (Some (dir first))
      end.

(** ** utils/pathfinding.ts, the earlier variant

    The same file in its first form: obstacles are passed as arrays and
    turned into a set inside each helper, and the policy follows the
    shortest route to the food, then the tail, then the largest space. *)

Definition getNeighbors_v1 (head : Point) (obstacles : list Point)
  : list (Point * Direction) :=
  let moves :=
    [ (mkPoint (px head) (py head - 1), UP);
      (mkPoint (px head) (py head + 1), DOWN);
      (mkPoint (px head - 1) (py head), LEFT);
      (mkPoint (px head + 1) (py head), RIGHT) ] in
  let obstacleSet : gset key := list_to_set (pKey <$> obstacles) in
  List.filter
    (fun m =>
       if outOfBounds (px (fst m)) (py (fst m)) then false
       else if bool_decide (pKey (fst m) ∈ obstacleSet) then false
       else true)
    moves.

Fixpoint getPath_v1_loop (fuel : nat) (target : Point) (obstacles : list Point)
    (queue : list (Point * list Direction)) (visited : gset key)
  : loop_result (option (list Direction)) :=
  match queue with
  | [] => Done None
  | (point, path) :: rest =>
      match fuel with
      | O => OutOfFuel
      | S fuel' =>
          if isSamePoint point target then Done (Some path)
          else
            let neighbors := getNeighbors_v1 point obstacles in
            let '(queue', visited') :=
              fold_left (getPath_visit path) neighbors (rest, visited) in
            getPath_v1_loop fuel' target obstacles queue' visited'
      end
  end.

Definition getPath_v1 (start target : Point) (obstacles : list Point)
  : option (list Direction) :=
  match getPath_v1_loop loopFuel target obstacles [(start, [])] {[pKey start]} with
  | Done r => r
  | OutOfFuel => None
  end.

(** The flood fill of the earlier variant builds its set once and then runs
    the very loop of the later one. *)
Definition getAccessibleAreaSize_v1 (start : Point) (obstacles : list Point) : Z :=
  let obstacleSet : gset key := list_to_set (pKey <$> obstacles) in
  match area_loop loopFuel obstacleSet [start] {[pKey start]} 0 with
  | Done count => count
  | OutOfFuel => 0
  end.

(** The emergency loop over the free neighbours of the head. *)
Fixpoint emergency_v1_loop (obstaclesForMove : list Point)
    (neighbors : list (Point * Direction))
    (bestMove : option Direction) (maxSpace : Z) : option Direction :=
  match neighbors with
  | [] => bestMove
  | (point, direction) :: rest =>
      let space := getAccessibleAreaSize_v1 point obstaclesForMove in
      if space >? maxSpace
      then emergency_v1_loop obstaclesForMove rest (Some direction) space
      else emergency_v1_loop obstaclesForMove rest bestMove maxSpace
  end.

Definition getNextAutoMove_v1 (snake : list Point) (food : Point)
  : result (option Direction) :=
  head ← index snake 0;
  currentTail ← index snake (length snake - 1)%nat;
  let obstaclesForMove := slice_0_m1 snake in
  let pathToFood := getPath_v1 head food snake in
  let towardsFood : result (option Direction) :=
    match pathToFood with
    | Some (nextMoveDir :: _) =>
        let nextHead := move head nextMoveDir in
        let virtualSnake := nextHead :: slice_0_m1 snake in
        virtualTail ← index virtualSnake (length virtualSnake - 1)%nat;
        let pathToTail :=
          getPath_v1 nextHead virtualTail (slice_0_m1 virtualSnake) in
        match pathToTail with
        | Some _ => Ok (Some nextMoveDir)
        | None => Ok None
        end
    | _ => Ok None
    end in
  chosen ← towardsFood;
  match chosen with
  | Some d => Ok (Some d)
  | None =>
      let pathToTail := getPath_v1 head currentTail (slice_0_m1 snake) in
      match pathToTail with
      | Some (d :: _) => Ok (Some d)
      | _ =>
          let neighbors := getNeighbors_v1 head obstaclesForMove in
          Ok (emergency_v1_loop obstaclesForMove neighbors None (-1))
      end
  end.

(** ** App.tsx: the game step *)

Inductive GameStatus := IDLE | PLAYING | GAME_OVER.

Global Instance GameStatus_eq_dec : EqDecision GameStatus.
Proof. solve_decision. Defined.

(** [handleDirectionChange]: the value of [directionRef.current] after a
    request for [newDir]. *)
Definition handleDirectionChange (isAutoMode : bool) (status : GameStatus)
    (currentDir newDir : Direction) : Direction :=
  if isAutoMode || negb (bool_decide (status = PLAYING)) then currentDir
  else
    let allowed :=
      match newDir with
      | UP => negb (bool_decide (currentDir = DOWN))
      | DOWN => negb (bool_decide (currentDir = UP))
      | LEFT => negb (bool_decide (currentDir = RIGHT))
      | RIGHT => negb (bool_decide (currentDir = LEFT))
      end in
    if allowed then newDir else currentDir.

(** [arr.slice(-n)]: the last [n] elements, all of them when there are
    fewer. *)
Definition slice_last {A} (n : nat) (arr : list A) : list A :=
  drop (length arr - n)%nat arr.

(** [addComment]: what [setComments] stores, for the entry built from the
    text, the time stamp and the type. *)
Definition addComment {A} (prev : list A) (entry : A) : list A :=
  slice_last 19 prev ++ [entry].

(** Why a step ended the game: the comment that [moveSnake] posts. *)
Inductive Failure := Trapped | HitWall | SelfCollision.

(** What the updater passed to [setSnake] does: it ends the game and
    returns [prevSnake], or it returns the new snake, having set the
    direction to [moveDir]; [ate] tells that the score and the food were
    updated. *)
Inductive StepOutcome :=
| GameOver (why : Failure)
| Advanced (moveDir : Direction) (newSnake : list Point) (ate : bool).

(** [prevSnake.some((segment, index) => ...)]: the last index is skipped. *)
Fixpoint isSelfCollisionFrom (index : nat) (len : nat) (segments : list Point)
    (nextHead : Point) : bool :=
  match segments with
  | [] => false
  | segment :: rest =>
      (if (index =? len - 1)%nat then false
       else (px segment =? px nextHead) && (py segment =? py nextHead))
      || isSelfCollisionFrom (S index) len rest nextHead
  end.

(** [arr.pop()]: what is left of the array. *)
Definition Array_pop {A} (arr : list A) : list A := removelast arr.

(** [moveSnake], as a function of the state it reads.  With an empty
    [prevSnake] and the autopilot off, the new head has no coordinates, is
    neither a wall nor a body cell nor the food, and is popped again. *)
Definition moveSnake (isAutoMode : bool) (currentDir : Direction)
    (food : Point) (prevSnake : list Point) : result StepOutcome :=
  autoDir ← (if isAutoMode then getNextAutoMove prevSnake food
             else Ok (Some currentDir));
  match autoDir with
  | None => Ok (GameOver Trapped)
  | Some moveDir =>
      match prevSnake !! 0%nat with
      | None => Ok (Advanced moveDir [] false)
      | Some head =>
          let nextHead := move head moveDir in
          if outOfBounds (px nextHead) (py nextHead) then Ok (GameOver HitWall)
          else
            let isSelfCollision :=
              isSelfCollisionFrom 0 (length prevSnake) prevSnake nextHead in
            if isSelfCollision then Ok (GameOver SelfCollision)
            else
              let newSnake := nextHead :: prevSnake in
              if (px nextHead =? px food) && (py nextHead =? py food)
              then Ok (Advanced moveDir newSnake true)
              else Ok (Advanced moveDir (Array_pop newSnake) false)
      end
  end.

(** The snake held by the state after the step. *)
Definition snakeAfter (prevSnake : list Point) (o : StepOutcome) : list Point :=
  match o with
  | GameOver _ => prevSnake
  | Advanced _ newSnake _ => newSnake
  end.

(** Consecutive cells of a body are neighbours on the grid. *)
Fixpoint chained (snake : list Point) : Prop :=
  match snake with
  | a :: (b :: _) as rest => (exists d, a = move b d) /\ chained rest
  | _ => True
  end.

(** The direction opposite to [d]. *)
Definition opposite (d : Direction) : Direction :=
  match d with
  | UP => DOWN
  | DOWN => UP
  | LEFT => RIGHT
  | RIGHT => LEFT
  end.

(** ** The grid graph *)

Definition inBounds (p : Point) : Prop :=
  0 <= px p < BOARD_WIDTH /\ 0 <= py p < BOARD_HEIGHT.

(** A cell that a search may step onto: on the board and not an obstacle. *)
Definition free (obs : gset key) (p : Point) : Prop :=
  inBounds p /\ pKey p ∉ obs.

(** [walk obs p path]: every cell entered by following [path] from [p] is
    free.  The start itself is not tested: the searches never test it. *)
Fixpoint walk (obs : gset key) (p : Point) (path : list Direction) : Prop :=
  match path with
  | [] => True
  | d :: path' => free obs (move p d) /\ walk obs (move p d) path'
  end.

Definition follow (p : Point) (path : list Direction) : Point :=
  fold_left move path p.

(** The cells visited by following [path] from [p], the start included. *)
Fixpoint trace (p : Point) (path : list Direction) : list Point :=
  p :: match path with
       | [] => []
       | d :: path' => trace (move p d) path'
       end.

Definition connects (obs : gset key) (start goal : Point)
    (path : list Direction) : Prop :=
  walk obs start path /\ follow start path = goal.

Definition reachable (obs : gset key) (start goal : Point) : Prop :=
  exists path, connects obs start goal path.

(** [n] is the graph distance from [start] to [goal]. *)
Definition distance (obs : gset key) (start goal : Point) (n : nat) : Prop :=
  (exists path, connects obs start goal path /\ length path = n) /\
  (forall path, connects obs start goal path -> (n <= length path)%nat).

(** Adjacency in the grid graph with the obstacle cells removed, and the
    connected component of a cell. *)
Definition adjacent (obs : gset key) (p q : Point) : Prop :=
  free obs p /\ free obs q /\ exists d, q = move p d.

Definition component (obs : gset key) (start : Point) : Point -> Prop :=
  rtc (adjacent obs) start.

(** ** The decision problem *)

(** The fixed enumeration order of the directions. *)
Definition rank (d : Direction) : nat :=
  match d with
  | UP => 0
  | DOWN => 1
  | LEFT => 2
  | RIGHT => 3
  end.

Definition moveOf (head : Point) (d : Direction) : Move :=
  mkMove d (px (move head d)) (py (move head d)).

Definition cellOf (m : Move) : Point := mkPoint (mx m) (my m).

(** What the caller owes: a non-empty body that does not cross itself and
    lies on the board, and a target on the board outside the body. *)
Definition valid_input (snake : list Point) (food : Point) : Prop :=
  snake <> [] /\ NoDup snake /\ Forall inBounds snake /\
  inBounds food /\ food ∉ snake.

(** [c] is occupied by a body cell other than the current tail. *)
Definition onBody (snake : list Point) (c : Point) : Prop :=
  exists i, (i < length snake - 1)%nat /\ snake !! i = Some c.

Definition isNeck (snake : list Point) (c : Point) : Prop :=
  snake !! 1%nat = Some c.

(** A legal resulting head cell. *)
Definition legal (snake : list Point) (c : Point) : Prop :=
  inBounds c /\ ~ onBody snake c.

(** A first step that survives candidate generation. *)
Definition candidate (snake : list Point) (head : Point) (d : Direction) : Prop :=
  inBounds (move head d) /\ ~ isNeck snake (move head d) /\
  ~ onBody snake (move head d).

(** The virtual state after a step to [c]. *)
Definition virtualBody (snake : list Point) (food c : Point) : list Point :=
  if decide (c = food) then c :: snake else c :: removelast snake.

Definition virtualTail (snake : list Point) (food c : Point) : Point :=
  List.last (virtualBody snake food c) c.

Definition obstaclesExcludingTail (snake : list Point) (food c : Point) : gset key :=
  setOfPoints (removelast (virtualBody snake food c)).

(** A candidate is safe when the pathfinder finds a route from the virtual
    head to the virtual tail. *)
Definition safe (snake : list Point) (food head : Point) (d : Direction) : Prop :=
  candidate snake head d /\
  getPath (move head d) (virtualTail snake food (move head d))
    (obstaclesExcludingTail snake food (move head d)) <> None.

(** The three flood-fill scores: over the whole virtual body, over the
    virtual body without its last cell, and over the current body without
    its tail. *)
Definition spaceVirtual (snake : list Point) (food c : Point) : Z :=
  getAccessibleAreaSize c (setOfPoints (virtualBody snake food c)).

Definition spaceExcludingTail (snake : list Point) (food c : Point) : Z :=
  getAccessibleAreaSize c (obstaclesExcludingTail snake food c).

Definition spaceCurrent (snake : list Point) (c : Point) : Z :=
  getAccessibleAreaSize c (setOfPoints (removelast snake)).

(** [d] is selected with the least cost, the first in enumeration order
    among equals. *)
Definition first_least (sel : Direction -> Prop) (cost : Direction -> nat -> Prop)
    (d : Direction) : Prop :=
  exists n, sel d /\ cost d n /\
    forall d' n', sel d' -> cost d' n' ->
      (n <= n')%nat /\ (n = n' -> (rank d <= rank d')%nat).

(** [d] is selected with the greatest score, the first in enumeration order
    among equals. *)
Definition first_greatest (sel : Direction -> Prop) (score : Direction -> Z)
    (d : Direction) : Prop :=
  sel d /\
  forall d', sel d' ->
    score d' <= score d /\ (score d' = score d -> (rank d <= rank d')%nat).

(** ** The loops of the policy in closed form *)

(** The [distToFood] recorded for a safe step to [c]. *)
Definition distToFoodOf (snake : list Point) (food c : Point) : option Z :=
  match getPath c food (obstaclesExcludingTail snake food c) with
  | Some p => Some (Z.of_nat (length p))
  | None => None
  end.

(** What one iteration of the safe-move loop pushes for move [m]. *)
Definition safeEntry (snake : list Point) (food : Point) (m : Move) : option SafeMove :=
  let c := cellOf m in
  match getPath c (virtualTail snake food c) (obstaclesExcludingTail snake food c) with
  | Some _ => Some (mkSafeMove (dir m) (distToFoodOf snake food c) 0)
  | None => None
  end.

(** The running maximum of the two space loops: a later element replaces the
    best one only with a strictly larger score. *)
Fixpoint pick_max {A} (score : A -> Z) (l : list A) (best : option A) (m : Z)
  : option A :=
  match l with
  | [] => best
  | a :: l' =>
      if score a >? m then pick_max score l' (Some a) (score a)
      else pick_max score l' best m
  end.

(** [x] is the first element of [l] with the least [cost]. *)
Definition first_min_in {A} (cost : A -> Z) (l : list A) (x : A) : Prop :=
  exists l1 l2, l = l1 ++ x :: l2 /\
    (forall y, y ∈ l1 -> cost x < cost y) /\ (forall y, y ∈ l2 -> cost x <= cost y).

(** [x] is the first element of [l] with the greatest [score]. *)
Definition first_max_in {A} (score : A -> Z) (l : list A) (x : A) : Prop :=
  exists l1 l2, l = l1 ++ x :: l2 /\
    (forall y, y ∈ l1 -> score y < score x) /\ (forall y, y ∈ l2 -> score y <= score x).

(** A list in strictly increasing enumeration order. *)
Definition ranked {A} (r : A -> nat) (l : list A) : Prop :=
  StronglySorted (fun a b => (r a < r b)%nat) l.

(** ** Concrete boards *)

(** Scenario A: a straight body heading up, the food two cells ahead. *)
Definition scenarioA_snake : list Point :=
  [mkPoint 2 2; mkPoint 2 3; mkPoint 2 4].
Definition scenarioA_food : Point := mkPoint 2 0.

(** A body coiled in the top-left corner around the food at [(0,0)]: the
    head at [(2,0)] can step down into the one-cell pocket [(2,1)] or right
    into the open board, and the cell [(3,1)] before the tail separates the
    two. *)
Definition pocket_snake : list Point :=
  [ mkPoint 2 0; mkPoint 1 0; mkPoint 1 1; mkPoint 0 1; mkPoint 0 2;
    mkPoint 1 2; mkPoint 2 2; mkPoint 3 2; mkPoint 3 1; mkPoint 4 1 ].
Definition pocket_food : Point := mkPoint 0 0.

(** A body of three cells folded into the corner: every neighbour of the
    head is a wall or the body. *)
Definition boxed_snake : list Point :=
  [ mkPoint 0 0; mkPoint 1 0; mkPoint 1 1; mkPoint 0 1; mkPoint 0 2 ].

(** A body whose tail end is sealed in the top-left corner: the only
    candidate of the head at [(0,2)] is DOWN, and after it the virtual tail
    [(0,1)] is walled in by the body. *)
Definition sealed_snake : list Point :=
  [ mkPoint 0 2; mkPoint 1 2; mkPoint 2 2; mkPoint 2 1; mkPoint 2 0;
    mkPoint 1 0; mkPoint 1 1; mkPoint 0 1; mkPoint 0 0 ].
Definition sealed_food : Point := mkPoint 10 10.

(** Scenario A with the food right above the head. *)
Definition adjacent_food : Point := mkPoint 2 1.

(** ** Loop measure and invariants *)

Definition unvisited (visited : gset key) : nat :=
  length (List.filter (fun k => negb (bool_decide (k ∈ visited))) boardKeys).

(** A queue entry of [getPath] holds a shortest route to its point. *)
Definition entry_ok (obs : gset key) (start : Point)
    (e : Point * list Direction) : Prop :=
  connects obs start (fst e) (snd e) /\
  forall pth, connects obs start (fst e) pth -> (length (snd e) <= length pth)%nat.

(** All free neighbours of [c] have been visited. *)
Definition expanded (obs : gset key) (visited : gset key) (c : Point) : Prop :=
  forall d, free obs (move c d) -> pKey (move c d) ∈ visited.

(** A point dequeued by [getPath]: it was not the target and it has been
    expanded. *)
Definition settled (obs : gset key) (target : Point) (visited : gset key)
    (c : Point) : Prop :=
  c <> target /\ expanded obs visited c.

(** The invariant of the [while] loop of [getPath]: the queue holds shortest
    routes, on at most two consecutive levels [k] and [k+1], and every cell
    within [k] steps of the start has been visited. *)
Definition bfs_inv (obs : gset key) (start target : Point)
    (queue : list (Point * list Direction)) (visited : gset key) : Prop :=
  Forall (entry_ok obs start) queue /\
  (forall c, pKey c ∈ visited ->
     (exists pth, (c, pth) ∈ queue) \/ settled obs target visited c) /\
  exists (k : nat) q1 q2,
    queue = q1 ++ q2 /\ (q1 = [] -> q2 = []) /\
    Forall (fun e => length (snd e) = k) q1 /\
    Forall (fun e => length (snd e) = S k) q2 /\
    (forall pth, walk obs start pth -> (length pth <= k)%nat ->
       pKey (follow start pth) ∈ visited).

(** The invariant of the [while] loop of [getAccessibleAreaSize]: visited
    cells are reachable, are queued or expanded, and [count] is the number of
    visited cells that left the queue. *)
Definition area_inv (obs : gset key) (start : Point)
    (queue : list Point) (visited : gset key) (count : Z) : Prop :=
  pKey start ∈ visited /\
  (forall c, c ∈ queue -> pKey c ∈ visited) /\
  (forall c, pKey c ∈ visited -> reachable obs start c) /\
  (forall c, pKey c ∈ visited -> c ∈ queue \/ expanded obs visited c) /\
  count + Z.of_nat (length queue) = Z.of_nat (size visited).

Definition unKey (k : key) : Point := mkPoint (fst k) (snd k).

(** ** Basic facts *)

Lemma pKey_inj p q : pKey p = pKey q -> p = q.
Proof. destruct p, q; unfold pKey; simpl; congruence. Qed.

Lemma isSamePoint_true p q : isSamePoint p q = true <-> p = q.
Proof.
  unfold isSamePoint. rewrite andb_true_iff, !Z.eqb_eq.
  destruct p, q; simpl; split; [intros [-> ->]; done | intros [= -> ->]; done].
Qed.

Lemma isSamePoint_false p q : isSamePoint p q = false <-> p <> q.
Proof.
  rewrite <- isSamePoint_true. destruct (isSamePoint p q); split; congruence.
Qed.

Lemma outOfBounds_false p : outOfBounds (px p) (py p) = false <-> inBounds p.
Proof. unfold outOfBounds, inBounds. rewrite !orb_false_iff. lia. Qed.

Lemma move_mk p d :
  move p d = match d with
             | UP => mkPoint (px p) (py p - 1)
             | DOWN => mkPoint (px p) (py p + 1)
             | LEFT => mkPoint (px p - 1) (py p)
             | RIGHT => mkPoint (px p + 1) (py p)
             end.
Proof. done. Qed.

Lemma elem_of_boardKeys p : inBounds p -> pKey p ∈ boardKeys.
Proof.
  intros [Hx Hy]. unfold boardKeys, pKey.
  apply list_elem_of_bind. exists (px p). split; [|apply elem_of_seqZ; lia].
  apply list_elem_of_bind. exists (py p). split; [apply list_elem_of_singleton; done|apply elem_of_seqZ; lia].
Qed.

Lemma getNeighbors_spec p obs n d :
  (n, d) ∈ getNeighbors p obs <-> n = move p d /\ free obs n.
Proof.
  unfold getNeighbors. rewrite list_elem_of_In, filter_In. simpl.
  unfold free. rewrite <- outOfBounds_false.
  destruct (outOfBounds (px n) (py n)); [|case_bool_decide].
  - split; [intros [_ ?]|intros [_ [? _]]]; done.
  - split; [intros [_ ?]|intros [_ [_ ?]]]; done.
  - split.
    + intros [Hin _]. split; [|done]. destruct d; simpl; intuition congruence.
    + intros [-> _]. split; [|done]. destruct d; simpl; auto.
Qed.

Lemma follow_app p a b : follow p (a ++ b) = follow (follow p a) b.
Proof. apply fold_left_app. Qed.

Lemma walk_app obs p a b :
  walk obs p (a ++ b) <-> walk obs p a /\ walk obs (follow p a) b.
Proof.
  revert p. induction a as [|d a IH]; intros p; simpl; [tauto|].
  rewrite IH. unfold follow. simpl. tauto.
Qed.

Lemma connects_snoc obs start p path d :
  connects obs start p path -> free obs (move p d) ->
  connects obs start (move p d) (path ++ [d]).
Proof.
  intros [Hw <-] Hf. split.
  - apply walk_app. simpl. auto.
  - by rewrite follow_app.
Qed.

(** ** Termination of the two loops *)

Lemma filter_length_mono {A} (f g : A -> bool) l :
  (forall a, f a = true -> g a = true) ->
  (length (List.filter f l) <= length (List.filter g l))%nat.
Proof.
  intros Hfg. induction l as [|a l IH]; simpl; [lia|].
  destruct (f a) eqn:Hf.
  - rewrite (Hfg a Hf). simpl. lia.
  - destruct (g a); simpl; lia.
Qed.

Lemma filter_length_lt {A} (f g : A -> bool) l x :
  (forall a, f a = true -> g a = true) ->
  x ∈ l -> g x = true -> f x = false ->
  (length (List.filter f l) < length (List.filter g l))%nat.
Proof.
  intros Hfg Hx Hg Hf. induction Hx as [x l|x a l Hx IH]; simpl.
  - rewrite Hg, Hf. simpl. pose proof (filter_length_mono f g l Hfg). lia.
  - specialize (IH Hg Hf). destruct (f a) eqn:Hfa.
    + rewrite (Hfg a Hfa). simpl. lia.
    + destruct (g a); simpl; lia.
Qed.

Lemma unvisited_insert k v :
  k ∈ boardKeys -> k ∉ v -> (unvisited ({[k]} ∪ v) < unvisited v)%nat.
Proof.
  intros Hk Hv. unfold unvisited. apply (filter_length_lt _ _ _ k); [|done| |].
  - intros a. rewrite !negb_true_iff, !bool_decide_eq_false. set_solver.
  - by rewrite negb_true_iff, bool_decide_eq_false.
  - rewrite negb_false_iff, bool_decide_eq_true. set_solver.
Qed.

Lemma getPath_visit_measure path ns q v q' v' :
  fold_left (getPath_visit path) ns (q, v) = (q', v') ->
  (forall n d, (n, d) ∈ ns -> inBounds n) ->
  (length q' + unvisited v' <= length q + unvisited v)%nat.
Proof.
  revert q v. induction ns as [|[n d] ns IH]; intros q v; simpl.
  - intros [= -> ->] _. lia.
  - intros Hfold Hns. case_bool_decide as Hin.
    + apply IH; [done|]. intros n' d' ?. apply (Hns n' d'). by right.
    + apply IH in Hfold; [|intros n' d' ?; apply (Hns n' d'); by right].
      assert (pKey n ∈ boardKeys) as Hb.
      { apply elem_of_boardKeys, (Hns n d). by left. }
      pose proof (unvisited_insert _ _ Hb Hin).
      rewrite length_app in Hfold. simpl in Hfold. lia.
Qed.

Lemma getPath_loop_terminates target obs fuel : forall q v,
  (length q + unvisited v <= fuel)%nat ->
  exists r, getPath_loop fuel target obs q v = Done r.
Proof.
  induction fuel as [|fuel IH]; intros [|[p path] rest] v Hm; simpl in *;
    try (by eexists); try lia.
  destruct (isSamePoint p target); [by eexists|].
  destruct (fold_left _ _ _) as [q' v'] eqn:Hfold.
  apply IH. apply getPath_visit_measure in Hfold.
  - lia.
  - intros n d Hn. apply getNeighbors_spec in Hn as [_ [? _]]. done.
Qed.

Lemma unvisited_le v : (unvisited v <= length boardKeys)%nat.
Proof. unfold unvisited. apply List.filter_length_le. Qed.

Lemma getPath_runs start target obs :
  exists r, getPath_loop loopFuel target obs [(start, [])] {[pKey start]} = Done r
            /\ getPath start target obs = r.
Proof.
  destruct (getPath_loop_terminates target obs loopFuel [(start, [])] {[pKey start]})
    as [r Hr].
  - pose proof (unvisited_le {[pKey start]}). unfold loopFuel. cbn [length]. lia.
  - exists r. split; [done|]. unfold getPath. by rewrite Hr.
Qed.

(** ** Correctness of the breadth-first search *)

Lemma getPath_visit_fold path ns : forall q v q' v',
  fold_left (getPath_visit path) ns (q, v) = (q', v') ->
  v ⊆ v' /\
  exists new, q' = q ++ new /\
    (forall n pth, (n, pth) ∈ new ->
       exists d, (n, d) ∈ ns /\ pth = path ++ [d] /\ pKey n ∉ v) /\
    (forall k, k ∈ v' -> k ∈ v \/ exists n pth, (n, pth) ∈ new /\ pKey n = k) /\
    (forall n d, (n, d) ∈ ns -> pKey n ∈ v').
Proof.
  induction ns as [|[n0 d0] ns IH]; intros q v q' v'; simpl.
  - intros [= -> ->]. split; [done|]. exists []. rewrite app_nil_r.
    split; [done|]. split; [|split].
    + intros n pth Hin. by apply elem_of_nil in Hin.
    + auto.
    + intros n d Hin. by apply elem_of_nil in Hin.
  - case_bool_decide as Hin; intros Hfold;
      apply IH in Hfold as (Hsub & new & -> & Hnew & Hv' & Hns).
    + split; [done|]. exists new. split; [done|]. split; [|split].
      * intros n pth Hn. destruct (Hnew n pth Hn) as (d & ? & ? & ?).
        exists d. split; [by right|done].
      * done.
      * intros n d [[= -> ->]|Hn]%elem_of_cons; [by apply Hsub|by eapply Hns].
    + split; [set_solver|].
      exists ((n0, path ++ [d0]) :: new). split; [by rewrite <- app_assoc|].
      split; [|split].
      * intros n pth [[= -> ->]|Hn]%elem_of_cons.
        -- exists d0. split; [by left|done].
        -- destruct (Hnew n pth Hn) as (d & ? & ? & ?).
           exists d. split; [by right|]. split; [done|set_solver].
      * intros k Hk. destruct (Hv' k Hk) as [Hk'|(n & pth & ? & ?)].
        -- apply elem_of_union in Hk' as [->%elem_of_singleton|?]; [|by left].
           right. exists n0, (path ++ [d0]). split; [by left|done].
        -- right. exists n, pth. split; [by right|done].
      * intros n d [[= -> ->]|Hn]%elem_of_cons; [set_solver|by eapply Hns].
Qed.

Lemma settled_mono obs target v v' c :
  v ⊆ v' -> settled obs target v c -> settled obs target v' c.
Proof. intros Hsub [? Hc]. split; [done|]. intros d Hd. by apply Hsub, Hc. Qed.

Lemma bfs_inv_init obs start target :
  bfs_inv obs start target [(start, [])] {[pKey start]}.
Proof.
  split; [|split].
  - constructor; [|constructor]. split; [by split|]. intros pth _. simpl. lia.
  - intros c ->%elem_of_singleton%pKey_inj. left. exists []. by left.
  - exists 0%nat, [(start, [])], []. split; [done|]. split; [done|].
    split; [by repeat constructor|]. split; [constructor|].
    intros [|d pth] _ Hlen; simpl in Hlen; [|lia]. by apply elem_of_singleton.
Qed.

Lemma bfs_inv_step obs start target p path rest v q' v' :
  bfs_inv obs start target ((p, path) :: rest) v ->
  p <> target ->
  fold_left (getPath_visit path) (getNeighbors p obs) (rest, v) = (q', v') ->
  bfs_inv obs start target q' v'.
Proof.
  intros (Hok & Hcls & k & q1 & q2 & Hq & Hnorm & Hq1 & Hq2 & Hbound) Hne Hfold.
  apply getPath_visit_fold in Hfold as (Hsub & new & -> & Hnew & Hv' & Hns).
  destruct q1 as [|e q1'].
  { rewrite (Hnorm eq_refl) in Hq. done. }
  simpl in Hq. injection Hq as <- ->.
  apply Forall_cons in Hq1 as [Hk Hq1]. simpl in Hk.
  apply Forall_cons in Hok as [[Hp _] Hok]. simpl in Hp.
  assert (forall n pth, (n, pth) ∈ new ->
            entry_ok obs start (n, pth) /\ length pth = S k) as Hnew_ok.
  { intros n pth Hin. destruct (Hnew n pth Hin) as (d & Hd & -> & Hfresh).
    apply getNeighbors_spec in Hd as [-> Hfree].
    rewrite length_app. simpl. split; [|lia]. split; simpl.
    - by apply connects_snoc.
    - intros pth' [Hw Hf]. rewrite length_app. simpl.
      destruct (decide (length pth' <= k)%nat) as [Hle|]; [|lia].
      exfalso. apply Hfresh. rewrite <- Hf. by apply Hbound. }
  assert (Forall (entry_ok obs start) ((q1' ++ q2) ++ new)) as Hok'.
  { apply Forall_app. split; [done|].
    apply Forall_forall. intros [n pth] Hin. by destruct (Hnew_ok n pth Hin). }
  assert (forall c, pKey c ∈ v' ->
            (exists pth, (c, pth) ∈ (q1' ++ q2) ++ new) \/ settled obs target v' c)
    as Hcls'.
  { intros c Hc. destruct (Hv' _ Hc) as [Hold|(n & pth & Hin & Hkey)].
    - destruct (Hcls c Hold) as [[pth Hin]|Hset].
      + apply elem_of_cons in Hin as [[= -> ->]|Hin].
        * right. split; [done|]. intros d Hd. apply (Hns _ d).
          by apply getNeighbors_spec.
        * left. exists pth. apply elem_of_app. by left.
      + right. by eapply settled_mono.
    - apply pKey_inj in Hkey as ->. left. exists pth. apply elem_of_app. by right. }
  assert (Forall (fun e => length (snd e) = S k) new) as Hnew_len.
  { apply Forall_forall. intros [n pth] Hin. by destruct (Hnew_ok n pth Hin). }
  split; [done|]. split; [done|].
  destruct (decide (q1' = [])) as [->|Hq1'].
  - simpl. destruct (decide (q2 ++ new = [])) as [Hnil|Hnil].
    + exists k, [], []. rewrite Hnil. split; [done|]. split; [done|].
      split; [constructor|]. split; [constructor|].
      intros pth Hw Hlen. by apply Hsub, Hbound.
    + exists (S k), (q2 ++ new), []. rewrite app_nil_r. split; [done|].
      split; [done|]. split; [by apply Forall_app|]. split; [constructor|].
      intros pth Hw Hlen.
      destruct (decide (length pth <= k)%nat) as [Hle|Hgt].
      { by apply Hsub, Hbound. }
      destruct (exists_last (l := pth)) as (pth0 & d & ->).
      { intros ->. simpl in Hgt. lia. }
      rewrite length_app in Hlen, Hgt. simpl in Hlen, Hgt.
      apply walk_app in Hw as [Hw0 [Hfree _]].
      rewrite follow_app. simpl.
      assert (pKey (follow start pth0) ∈ v') as Hc.
      { apply Hsub, Hbound; [done|lia]. }
      destruct (Hcls' _ Hc) as [[pth1 Hin]|[_ Hset]]; [|by apply Hset].
      exfalso. simpl in Hok'.
      assert (length pth1 = S k) as Hlen1.
      { assert (Forall (fun e => length (snd e) = S k) (q2 ++ new)) as HF
          by by apply Forall_app.
        rewrite Forall_forall in HF. apply (HF _ Hin). }
      rewrite Forall_forall in Hok'. destruct (Hok' _ Hin) as [_ Hmin].
      specialize (Hmin pth0 (conj Hw0 eq_refl)). simpl in Hmin. lia.
  - exists k, q1', (q2 ++ new). split; [by rewrite app_assoc|].
    split; [done|]. split; [done|]. split; [by apply Forall_app|].
    intros pth Hw Hlen. by apply Hsub, Hbound.
Qed.

Lemma expanded_closed obs v pth : forall c,
  (forall c, pKey c ∈ v -> expanded obs v c) ->
  pKey c ∈ v -> walk obs c pth -> pKey (follow c pth) ∈ v.
Proof.
  induction pth as [|d pth IH]; intros c Hall Hc; simpl; [done|].
  intros [Hfree Hw]. apply IH; [done| |done]. by apply (Hall c Hc).
Qed.

Lemma bfs_inv_empty obs start target v :
  bfs_inv obs start target [] v -> forall pth, ~ connects obs start target pth.
Proof.
  intros (_ & Hcls & k & q1 & q2 & _ & _ & _ & _ & Hb).
  assert (forall c, pKey c ∈ v -> settled obs target v c) as Hall.
  { intros c Hc. destruct (Hcls c Hc) as [[pth Hin]|]; [|done].
    by apply elem_of_nil in Hin. }
  intros pth [Hw Hf].
  assert (pKey start ∈ v) as Hs by (apply (Hb []); simpl; [done|lia]).
  assert (pKey (follow start pth) ∈ v) as Ht.
  { apply (expanded_closed obs); [|done..]. intros c Hc. by destruct (Hall c Hc). }
  rewrite Hf in Ht. by destruct (Hall _ Ht).
Qed.

Lemma getPath_loop_correct obs start target fuel : forall q v r,
  bfs_inv obs start target q v ->
  getPath_loop fuel target obs q v = Done r ->
  match r with
  | Some path =>
      connects obs start target path /\
      forall pth, connects obs start target pth -> (length path <= length pth)%nat
  | None => forall pth, ~ connects obs start target pth
  end.
Proof.
  induction fuel as [|fuel IH]; intros [|[p path] rest] v r Hinv; simpl;
    try discriminate.
  - intros [= <-]. exact (bfs_inv_empty _ _ _ _ Hinv).
  - intros [= <-]. exact (bfs_inv_empty _ _ _ _ Hinv).
  - destruct (isSamePoint p target) eqn:Hsame.
    + intros [= <-]. apply isSamePoint_true in Hsame as ->.
      destruct Hinv as (Hok & _). by apply Forall_cons in Hok as [Hp _].
    + apply isSamePoint_false in Hsame.
      destruct (fold_left _ _ _) as [q' v'] eqn:Hfold.
      apply IH. by eapply bfs_inv_step.
Qed.

Lemma getPath_spec start target obs :
  match getPath start target obs with
  | Some path =>
      connects obs start target path /\
      forall pth, connects obs start target pth -> (length path <= length pth)%nat
  | None => forall pth, ~ connects obs start target pth
  end.
Proof.
  destruct (getPath_runs start target obs) as (r & Hr & ->).
  eapply getPath_loop_correct; [apply bfs_inv_init|done].
Qed.

Lemma getPath_Some start target obs path :
  getPath start target obs = Some path ->
  connects obs start target path /\ distance obs start target (length path).
Proof.
  intros H. pose proof (getPath_spec start target obs) as Hs. rewrite H in Hs.
  destruct Hs as [Hc Hmin]. split; [done|]. split; [by exists path|done].
Qed.

Lemma getPath_None start target obs :
  getPath start target obs = None <-> ~ reachable obs start target.
Proof.
  pose proof (getPath_spec start target obs) as Hs. split.
  - intros H. rewrite H in Hs. intros [pth Hp]. by apply (Hs pth).
  - intros Hn. destruct (getPath start target obs) as [path|]; [|done].
    exfalso. apply Hn. exists path. apply Hs.
Qed.

Lemma getPath_same start obs : getPath start start obs = Some [].
Proof.
  unfold getPath, loopFuel. cbn [getPath_loop].
  by rewrite (proj2 (isSamePoint_true start start) eq_refl).
Qed.

Lemma distance_unique obs start goal n m :
  distance obs start goal n -> distance obs start goal m -> n = m.
Proof.
  intros [(p1 & Hc1 & <-) Hmin1] [(p2 & Hc2 & <-) Hmin2].
  specialize (Hmin1 _ Hc2). specialize (Hmin2 _ Hc1). lia.
Qed.

Lemma trace_split p path c :
  c ∈ trace p path -> exists a b, path = a ++ b /\ follow p a = c.
Proof.
  revert p. induction path as [|d path IH]; intros p; simpl.
  - intros ->%list_elem_of_singleton. by exists [], [].
  - intros [->|Hin]%elem_of_cons.
    + by exists [], (d :: path).
    + destruct (IH _ Hin) as (a & b & -> & <-). by exists (d :: a), b.
Qed.

Lemma shortest_NoDup obs path : forall start,
  walk obs start path ->
  (forall pth, connects obs start (follow start path) pth ->
     (length path <= length pth)%nat) ->
  NoDup (trace start path).
Proof.
  induction path as [|d path IH]; intros start Hw Hmin; simpl.
  - apply NoDup_singleton.
  - destruct Hw as [Hfree Hw]. apply NoDup_cons. split.
    + intros Hin. apply trace_split in Hin as (a & b & -> & Ha).
      apply walk_app in Hw as [_ Hb]. rewrite Ha in Hb.
      specialize (Hmin b). simpl in Hmin.
      unfold follow in Hmin at 1. simpl in Hmin. fold (follow (move start d) (a ++ b)) in Hmin.
      rewrite follow_app, Ha in Hmin. specialize (Hmin (conj Hb eq_refl)).
      rewrite length_app in Hmin. lia.
    + apply IH; [done|]. intros pth [Hw' Hf'].
      specialize (Hmin (d :: pth)). simpl in Hmin.
      assert (length (d :: path) <= S (length pth))%nat; [|simpl in *; lia].
      apply Hmin. split; [by split|]. done.
Qed.

Lemma walk_trace obs path : forall start,
  walk obs start path <-> Forall (free obs) (tail (trace start path)).
Proof.
  induction path as [|d path IH]; intros start; simpl.
  - split; [constructor|done].
  - rewrite IH. destruct path; simpl; rewrite Forall_cons; tauto.
Qed.

Lemma last_trace path : forall start,
  last (trace start path) = Some (follow start path).
Proof.
  induction path as [|d path IH]; intros start; [done|].
  change (trace start (d :: path)) with (start :: trace (move start d) path).
  specialize (IH (move start d)). destruct (trace (move start d) path) eqn:E.
  - by destruct path.
  - rewrite last_cons_cons. by rewrite IH. 
Qed.

(** ** Correctness of the flood fill *)

Lemma area_visit_measure obs ns : forall q v q' v',
  fold_left (area_visit obs) ns (q, v) = (q', v') ->
  (length q' + unvisited v' <= length q + unvisited v)%nat.
Proof.
  induction ns as [|n ns IH]; intros q v q' v'; simpl.
  - intros [= -> ->]. lia.
  - destruct (outOfBounds (px n) (py n)) eqn:Hb; [by apply IH|].
    case_bool_decide as Hin; simpl; [by apply IH|].
    case_bool_decide as Hobs; simpl; [by apply IH|].
    intros Hfold%IH. rewrite length_app in Hfold. simpl in Hfold.
    apply outOfBounds_false, elem_of_boardKeys in Hb.
    pose proof (unvisited_insert _ _ Hb Hin). lia.
Qed.

Lemma area_loop_terminates obs fuel : forall q v count,
  (length q + unvisited v <= fuel)%nat ->
  exists r, area_loop fuel obs q v count = Done r.
Proof.
  induction fuel as [|fuel IH]; intros [|p rest] v count Hm;
    cbn [area_loop]; simpl in Hm; try (by eexists); try lia.
  destruct (fold_left _ _ _) as [q' v'] eqn:Hfold.
  apply IH. apply area_visit_measure in Hfold. lia.
Qed.

Lemma area_visit_fold obs ns : forall q v q' v',
  fold_left (area_visit obs) ns (q, v) = (q', v') ->
  v ⊆ v' /\
  exists new, q' = q ++ new /\
    (forall n, n ∈ new -> n ∈ ns /\ free obs n) /\
    (forall k, k ∈ v' -> k ∈ v \/ exists n, n ∈ new /\ pKey n = k) /\
    (forall n, n ∈ ns -> free obs n -> pKey n ∈ v') /\
    size v' = (size v + length new)%nat.
Proof.
  induction ns as [|n0 ns IH]; intros q v q' v'; simpl.
  - intros [= -> ->]. split; [done|]. exists []. rewrite app_nil_r.
    split; [done|]. split; [|split; [|split]]; simpl; auto.
    + intros n Hin. by apply elem_of_nil in Hin.
    + intros n Hin. by apply elem_of_nil in Hin.
  - assert (forall q0 v0, fold_left (area_visit obs) ns (q0, v0) = (q', v') ->
              q0 = q -> v0 = v -> (free obs n0 -> pKey n0 ∈ v) ->
              v ⊆ v' /\ exists new, q' = q ++ new /\
                (forall n, n ∈ new -> n ∈ n0 :: ns /\ free obs n) /\
                (forall k, k ∈ v' -> k ∈ v \/ exists n, n ∈ new /\ pKey n = k) /\
                (forall n, n ∈ n0 :: ns -> free obs n -> pKey n ∈ v') /\
                size v' = (size v + length new)%nat) as Hskip.
    { intros q0 v0 Hfold -> -> Hn0.
      apply IH in Hfold as (Hsub & new & -> & Hnew & Hv' & Hns & Hsize).
      split; [done|]. exists new. split; [done|]. split; [|split; [|split]].
      - intros n Hn. destruct (Hnew n Hn). split; [by right|done].
      - done.
      - intros n [->|Hn]%elem_of_cons Hf; [by apply Hsub, Hn0|by apply Hns].
      - done. }
    destruct (outOfBounds (px n0) (py n0)) eqn:Hb.
    { intros Hfold. apply (Hskip _ _ Hfold); [done..|].
      intros [Hin _]. apply outOfBounds_false in Hin. congruence. }
    case_bool_decide as Hin; simpl.
    { intros Hfold. by apply (Hskip _ _ Hfold). }
    case_bool_decide as Hobs; simpl.
    { intros Hfold. apply (Hskip _ _ Hfold); [done..|]. by intros [_ ?]. }
    clear Hskip. intros Hfold.
    apply IH in Hfold as (Hsub & new & -> & Hnew & Hv' & Hns & Hsize).
    apply outOfBounds_false in Hb.
    split; [set_solver|]. exists (n0 :: new).
    split; [by rewrite <- app_assoc|]. split; [|split; [|split]].
    + intros n [->|Hn]%elem_of_cons.
      * split; [by left|done].
      * destruct (Hnew n Hn). split; [by right|done].
    + intros k Hk. destruct (Hv' k Hk) as [Hk'|(n & ? & ?)].
      * apply elem_of_union in Hk' as [->%elem_of_singleton|?]; [|by left].
        right. exists n0. split; [by left|done].
      * right. exists n. split; [by right|done].
    + intros n [->|Hn]%elem_of_cons Hf; [set_solver|by apply Hns].
    + rewrite Hsize, size_union, size_singleton by set_solver. simpl. lia.
Qed.

Lemma elem_of_nexts p n :
  n ∈ [ mkPoint (px p) (py p - 1); mkPoint (px p) (py p + 1);
        mkPoint (px p - 1) (py p); mkPoint (px p + 1) (py p) ]
  <-> exists d, n = move p d.
Proof.
  rewrite !elem_of_cons, elem_of_nil. split.
  - intros [->|[->|[->|[->|[]]]]]; [by exists UP|by exists DOWN|by exists LEFT|by exists RIGHT].
  - intros [[] ->]; simpl; tauto.
Qed.

Lemma reachable_step obs start c d :
  reachable obs start c -> free obs (move c d) -> reachable obs start (move c d).
Proof. intros [path Hp] Hf. exists (path ++ [d]). by apply connects_snoc. Qed.

Lemma area_inv_init obs start : area_inv obs start [start] {[pKey start]} 0.
Proof.
  split; [by apply elem_of_singleton|]. split; [|split; [|split]].
  - intros c ->%list_elem_of_singleton. by apply elem_of_singleton.
  - intros c ->%elem_of_singleton%pKey_inj. by exists [].
  - intros c ->%elem_of_singleton%pKey_inj. left. by left.
  - by rewrite size_singleton.
Qed.

Lemma area_inv_step obs start current rest v count q' v' :
  area_inv obs start (current :: rest) v count ->
  fold_left (area_visit obs)
    [ mkPoint (px current) (py current - 1); mkPoint (px current) (py current + 1);
      mkPoint (px current - 1) (py current); mkPoint (px current + 1) (py current) ]
    (rest, v) = (q', v') ->
  area_inv obs start q' v' (count + 1).
Proof.
  intros (Hs & Hq & Hreach & Hcls & Hcount) Hfold.
  apply area_visit_fold in Hfold as (Hsub & new & -> & Hnew & Hv' & Hns & Hsize).
  assert (reachable obs start current) as Hcur.
  { apply Hreach, Hq. by left. }
  split; [by apply Hsub|]. split; [|split; [|split]].
  - intros c [Hc|Hc]%elem_of_app.
    + apply Hsub, Hq. by right.
    + destruct (Hnew c Hc) as [_ Hf]. apply Hns; [|done]. by destruct (Hnew c Hc).
  - intros c Hc. destruct (Hv' _ Hc) as [Hold|(n & Hn & Hkey)]; [by apply Hreach|].
    apply pKey_inj in Hkey as ->. destruct (Hnew c Hn) as [[d ->]%elem_of_nexts Hf].
    by apply reachable_step.
  - intros c Hc. destruct (Hv' _ Hc) as [Hold|(n & Hn & Hkey)].
    + destruct (Hcls c Hold) as [[->|Hin]%elem_of_cons|Hexp].
      * right. intros d Hd. apply Hns; [|done]. apply elem_of_nexts. by exists d.
      * left. apply elem_of_app. by left.
      * right. intros d Hd. by apply Hsub, Hexp.
    + apply pKey_inj in Hkey as ->. left. apply elem_of_app. by right.
  - rewrite Hsize, length_app. simpl in Hcount. lia.
Qed.

Lemma area_loop_correct obs start fuel : forall q v count r,
  area_inv obs start q v count ->
  area_loop fuel obs q v count = Done r ->
  exists visited, area_inv obs start [] visited r.
Proof.
  induction fuel as [|fuel IH]; intros [|p rest] v count r Hinv;
    cbn [area_loop]; try discriminate.
  - intros [= <-]. by exists v.
  - intros [= <-]. by exists v.
  - destruct (fold_left _ _ _) as [q' v'] eqn:Hfold.
    apply IH. by eapply area_inv_step.
Qed.

Lemma getAccessibleAreaSize_visited start obs :
  exists visited : gset key,
    (forall c, pKey c ∈ visited <-> reachable obs start c) /\
    getAccessibleAreaSize start obs = Z.of_nat (size visited).
Proof.
  destruct (area_loop_terminates obs loopFuel [start] {[pKey start]} 0) as [r Hr].
  { pose proof (unvisited_le {[pKey start]}). unfold loopFuel. cbn [length]. lia. }
  unfold getAccessibleAreaSize. rewrite Hr.
  apply (area_loop_correct obs start) in Hr as (v & Hs & _ & Hreach & Hcls & Hcount);
    [|apply area_inv_init].
  exists v. split; [|simpl in Hcount; lia].
  intros c. split; [apply Hreach|]. intros (path & Hw & <-).
  apply (expanded_closed obs); [|done..].
  intros c' Hc'. destruct (Hcls c' Hc') as [Hin|]; [|done].
  by apply elem_of_nil in Hin.
Qed.

Lemma getAccessibleAreaSize_pos start obs : 1 <= getAccessibleAreaSize start obs.
Proof.
  destruct (getAccessibleAreaSize_visited start obs) as (v & Hv & ->).
  assert (pKey start ∈ v) as Hs by (apply Hv; by exists []).
  assert (size v <> 0%nat); [|lia].
  intros Hz%size_empty_inv. set_solver.
Qed.

Lemma reachable_component obs start c :
  free obs start -> reachable obs start c <-> component obs start c.
Proof.
  intros Hs. split.
  - intros (path & Hw & <-). revert start Hs Hw.
    induction path as [|d path IH]; intros start Hs; simpl.
    + intros _. apply rtc_refl.
    + intros [Hf Hw]. eapply rtc_l; [|by apply IH].
      split; [done|]. split; [done|]. by exists d.
  - intros Hc. induction Hc as [x|x y z (Hx & Hy & d & ->) _ IH].
    + by exists [].
    + destruct (IH Hy) as (path & Hw & Hf). exists (d :: path).
      split; [by split|done].
Qed.

(** From here on the two searches are used through their specifications
    only. *)
Global Opaque getPath getAccessibleAreaSize.

(** ** Sorting, running maxima and enumeration order *)

Lemma sort_insert_head {A} (cost : A -> Z) a s :
  head (sort_insert (fun x y => cost x - cost y) a s) =
  match head s with
  | Some b => if cost a - cost b <=? 0 then Some a else Some b
  | None => Some a
  end.
Proof. destruct s as [|b s]; simpl; [done|]. by destruct (_ <=? 0). Qed.

Lemma Array_sort_head {A} (cost : A -> Z) l :
  l <> [] ->
  exists x, head (Array_sort (fun a b => cost a - cost b) l) = Some x /\
            first_min_in cost l x.
Proof.
  induction l as [|a l IH]; [done|]. intros _. unfold Array_sort. simpl.
  fold (Array_sort (fun a b => cost a - cost b) l).
  rewrite sort_insert_head. destruct l as [|a' l'].
  - simpl. exists a. split; [done|]. exists [], []. split; [done|].
    split; intros y Hy; by apply elem_of_nil in Hy.
  - destruct IH as (b & -> & l1 & l2 & Hl & H1 & H2); [done|]. rewrite Hl.
    destruct (Z.leb_spec (cost a - cost b) 0) as [Hle|Hgt].
    + exists a. split; [done|]. exists [], (l1 ++ b :: l2). split; [done|].
      split; [intros y Hy; by apply elem_of_nil in Hy|].
      intros y [Hy|[->|Hy]%elem_of_cons]%elem_of_app.
      * specialize (H1 y Hy). lia.
      * lia.
      * specialize (H2 y Hy). lia.
    + exists b. split; [done|]. exists (a :: l1), l2. split; [done|].
      split; [|done]. intros y [->|Hy]%elem_of_cons; [lia|by apply H1].
Qed.

Lemma pick_max_spec {A} (score : A -> Z) l : forall best m,
  (pick_max score l best m = best /\ forall y, y ∈ l -> score y <= m) \/
  (exists x, pick_max score l best m = Some x /\ m < score x /\
             first_max_in score l x).
Proof.
  induction l as [|a l IH]; intros best m; simpl.
  - left. split; [done|]. intros y Hy. by apply elem_of_nil in Hy.
  - destruct (Z.gtb_spec (score a) m) as [Hgt|Hle].
    + right. destruct (IH (Some a) (score a))
        as [[-> Hall]|(x & -> & Hx & l1 & l2 & -> & H1 & H2)].
      * exists a. split; [done|]. split; [done|]. exists [], l. split; [done|].
        split; [intros y Hy; by apply elem_of_nil in Hy|done].
      * exists x. split; [done|]. split; [lia|]. exists (a :: l1), l2.
        split; [done|]. split; [|done].
        intros y [->|Hy]%elem_of_cons; [done|by apply H1].
    + destruct (IH best m) as [[-> Hall]|(x & -> & Hx & l1 & l2 & -> & H1 & H2)].
      * left. split; [done|]. intros y [->|Hy]%elem_of_cons; [lia|by apply Hall].
      * right. exists x. split; [done|]. split; [done|]. exists (a :: l1), l2.
        split; [done|]. split; [|done].
        intros y [->|Hy]%elem_of_cons; [lia|by apply H1].
Qed.

Lemma ranked_filter {A} (r : A -> nat) f l :
  ranked r l -> ranked r (List.filter f l).
Proof.
  induction 1 as [|a l Hl IH Ha]; simpl; [constructor|].
  destruct (f a); [|done]. constructor; [done|].
  rewrite List.Forall_forall in *. intros x [Hx _]%filter_In. by apply Ha.
Qed.

Lemma ranked_omap {A B} (r : A -> nat) (r' : B -> nat) (f : A -> option B) l :
  (forall x y, f x = Some y -> r' y = r x) ->
  ranked r l -> ranked r' (omap f l).
Proof.
  intros Hf. induction 1 as [|a l Hl IH Ha]; simpl; [constructor|].
  destruct (f a) as [b|] eqn:Hb; [|done]. constructor; [done|].
  apply Forall_forall. intros y (x & Hx & Hy)%list_elem_of_omap.
  rewrite (Hf _ _ Hb), (Hf _ _ Hy). rewrite Forall_forall in Ha. by apply Ha.
Qed.

Lemma ranked_split {A} (r : A -> nat) l1 x l2 :
  ranked r (l1 ++ x :: l2) ->
  (forall y, y ∈ l1 -> (r y < r x)%nat) /\ (forall y, y ∈ l2 -> (r x < r y)%nat).
Proof.
  induction l1 as [|a l1 IH]; simpl; intros Hs.
  - apply StronglySorted_inv in Hs as [_ Hx]. rewrite Forall_forall in Hx.
    split; [|done]. intros y Hy. by apply elem_of_nil in Hy.
  - apply StronglySorted_inv in Hs as [Hs Ha]. destruct (IH Hs) as [H1 H2].
    split; [|done]. intros y [->|Hy]%elem_of_cons; [|by apply H1].
    rewrite Forall_forall in Ha. apply Ha. apply elem_of_app. right. by left.
Qed.

Lemma ranked_inj {A} (r : A -> nat) l x y :
  ranked r l -> x ∈ l -> y ∈ l -> r x = r y -> x = y.
Proof.
  intros Hs Hx Hy Hr. apply list_elem_of_split in Hx as (l1 & l2 & ->).
  destruct (ranked_split _ _ _ _ Hs) as [H1 H2].
  apply elem_of_app in Hy as [Hy|[->|Hy]%elem_of_cons]; [|done|].
  - specialize (H1 y Hy). lia.
  - specialize (H2 y Hy). lia.
Qed.

Lemma ranked_possibleMoves h : ranked (fun m => rank (dir m)) (possibleMoves h).
Proof. unfold possibleMoves. repeat constructor; simpl; lia. Qed.

(** ** The move simulator *)

Lemma slice_0_m1_removelast {A} (l : list A) : slice_0_m1 l = removelast l.
Proof.
  unfold slice_0_m1. rewrite removelast_firstn_len.
  by replace (length l - 1)%nat with (pred (length l)) by lia.
Qed.

Lemma index_last {A} (l : list A) (d : A) :
  l <> [] -> index l (length l - 1) = Ok (List.last l d).
Proof.
  intros Hl. destruct (exists_last Hl) as (l' & a & ->).
  unfold index. rewrite length_app, List.last_last. simpl.
  replace (length l' + 1 - 1)%nat with (length l') by lia.
  by rewrite list_lookup_middle.
Qed.

Lemma willEatAt_true c food : willEatAt c food = true <-> c = food.
Proof. apply isSamePoint_true. Qed.

Lemma virtualSnakeOf_eq snake food c :
  virtualSnakeOf snake food c = virtualBody snake food c.
Proof.
  unfold virtualSnakeOf, virtualBody. rewrite slice_0_m1_removelast.
  destruct (willEatAt c food) eqn:He.
  - apply willEatAt_true in He. by rewrite decide_True.
  - rewrite decide_False; [done|]. intros ?%willEatAt_true. congruence.
Qed.

Lemma virtualBody_nonempty snake food c : virtualBody snake food c <> [].
Proof. unfold virtualBody. by case_decide. Qed.

Lemma virtualTailOf_eq snake food c :
  virtualTailOf (virtualSnakeOf snake food c) = Ok (virtualTail snake food c).
Proof.
  rewrite virtualSnakeOf_eq. apply index_last, virtualBody_nonempty.
Qed.

Lemma obstaclesArrOf_eq snake food c :
  setOfPoints (obstaclesArrOf (virtualSnakeOf snake food c)) =
  obstaclesExcludingTail snake food c.
Proof.
  unfold obstaclesArrOf, obstaclesExcludingTail.
  by rewrite slice_0_m1_removelast, virtualSnakeOf_eq.
Qed.

Lemma safeMoves_loop_spec snake food moves : forall acc,
  safeMoves_loop snake food moves acc = Ok (acc ++ omap (safeEntry snake food) moves).
Proof.
  induction moves as [|m moves IH]; intros acc; simpl.
  - by rewrite app_nil_r.
  - rewrite virtualTailOf_eq. simpl. rewrite obstaclesArrOf_eq.
    unfold safeEntry, distToFoodOf. fold (cellOf m). cbv zeta.
    destruct (getPath (cellOf m) (virtualTail snake food (cellOf m)) _).
    + by rewrite IH, <- app_assoc.
    + apply IH.
Qed.

(** ** Candidate generation *)

Lemma cellOf_moveOf h d : cellOf (moveOf h d) = move h d.
Proof. by destruct d. Qed.

Lemma elem_of_possibleMoves h m :
  m ∈ possibleMoves h <-> exists d, m = moveOf h d.
Proof.
  unfold possibleMoves. rewrite !elem_of_cons, elem_of_nil. split.
  - intros [->|[->|[->|[->|[]]]]];
      [by exists UP|by exists DOWN|by exists LEFT|by exists RIGHT].
  - intros [[] ->]; unfold moveOf; simpl; tauto.
Qed.

Lemma neckOf_lookup snake : neckOf snake = snake !! 1%nat.
Proof.
  unfold neckOf. case_bool_decide as Hlen; [done|].
  symmetry. apply lookup_ge_None. lia.
Qed.

Lemma isBody_onBody snake m :
  existsb (fun p => (px p =? mx m) && (py p =? my m)) (slice_0_m1 snake) = true
  <-> onBody snake (cellOf m).
Proof.
  rewrite existsb_exists. unfold onBody, slice_0_m1. split.
  - intros (p & Hin & Heq). apply list_elem_of_In, list_elem_of_lookup in Hin as [i Hi].
    apply lookup_take_Some in Hi as [Hi Hlt]. exists i. split; [done|].
    rewrite Hi. f_equal. apply andb_true_iff in Heq as [?%Z.eqb_eq ?%Z.eqb_eq].
    destruct p; unfold cellOf; simpl in *; congruence.
  - intros (i & Hlt & Hi). exists (cellOf m). split.
    + apply list_elem_of_In, list_elem_of_lookup. exists i.
      apply lookup_take_Some. done.
    + simpl. by rewrite !Z.eqb_refl.
Qed.

Lemma validMoves_filter snake h m :
  m ∈ validMovesOf snake h <->
  m ∈ possibleMoves h /\
  inBounds (cellOf m) /\ ~ isNeck snake (cellOf m) /\ ~ onBody snake (cellOf m).
Proof.
  unfold validMovesOf. rewrite list_elem_of_In, filter_In, <- list_elem_of_In.
  apply and_iff_compat_l.
  rewrite <- (outOfBounds_false (cellOf m)), <- isBody_onBody, neckOf_lookup.
  unfold isNeck. simpl.
  destruct (outOfBounds (mx m) (my m)); [intuition congruence|].
  destruct (snake !! 1%nat) as [n|] eqn:Hn.
  - destruct ((mx m =? px n) && (my m =? py n)) eqn:Heq.
    + apply andb_true_iff in Heq as [?%Z.eqb_eq ?%Z.eqb_eq].
      split; [done|]. intros (_ & Hneck & _). exfalso. apply Hneck.
      f_equal. destruct n; unfold cellOf; simpl in *; congruence.
    + destruct (existsb _ _); [intuition congruence|].
      split; [|done]. intros _. split; [done|]. split; [|congruence].
      intros [= ->]. simpl in Heq. by rewrite !Z.eqb_refl in Heq.
  - destruct (existsb _ _); [intuition congruence|].
    split; [|done]. intros _. split; [done|]. split; congruence.
Qed.

Lemma validMoves_candidate snake h m :
  m ∈ validMovesOf snake h <-> exists d, m = moveOf h d /\ candidate snake h d.
Proof.
  rewrite validMoves_filter, elem_of_possibleMoves. unfold candidate. split.
  - intros [[d ->] H]. rewrite cellOf_moveOf in H. by exists d.
  - intros (d & -> & H). rewrite cellOf_moveOf. split; [by exists d|done].
Qed.

Lemma validMoves_ranked snake h :
  ranked (fun m => rank (dir m)) (validMovesOf snake h).
Proof. apply ranked_filter, ranked_possibleMoves. Qed.

(** ** The three strategies in closed form *)

Lemma find_unique {A} (f : A -> bool) l x :
  x ∈ l -> f x = true -> (forall y, y ∈ l -> f y = true -> y = x) ->
  List.find f l = Some x.
Proof.
  induction l as [|a l IH]; intros Hx Hfx Huniq; [by apply elem_of_nil in Hx|].
  simpl. destruct (f a) eqn:Hfa.
  - f_equal. apply Huniq; [by left|done].
  - apply IH; [|done|].
    + apply elem_of_cons in Hx as [->|]; [congruence|done].
    + intros y Hy. apply Huniq. by right.
Qed.

Lemma safeEntry_dir snake food m e : safeEntry snake food m = Some e -> sdir e = dir m.
Proof.
  unfold safeEntry. cbv zeta. generalize (distToFoodOf snake food (cellOf m)).
  intros o. destruct (getPath _ _ _); [|discriminate].
  intros H. injection H as <-. reflexivity.
Qed.

Lemma safeMoves_find snake food h e :
  e ∈ omap (safeEntry snake food) (validMovesOf snake h) ->
  List.find (fun vm => bool_decide (dir vm = sdir e)) (validMovesOf snake h)
  = Some (moveOf h (sdir e)).
Proof.
  intros (m & Hm & He)%list_elem_of_omap. apply safeEntry_dir in He.
  pose proof Hm as (d & -> & _)%validMoves_candidate. simpl in He. rewrite He.
  apply find_unique; [done|by apply bool_decide_eq_true|].
  intros y Hy Hd%bool_decide_eq_true.
  apply (ranked_inj _ _ _ _ (validMoves_ranked snake h) Hy Hm). by rewrite Hd.
Qed.

Lemma strategyB_space snake food c :
  getAccessibleAreaSize c
    (setOfPoints (if willEatAt c food then c :: snake else c :: slice_0_m1 snake))
  = spaceVirtual snake food c.
Proof.
  change (if willEatAt c food then c :: snake else c :: slice_0_m1 snake)
    with (virtualSnakeOf snake food c).
  by rewrite virtualSnakeOf_eq.
Qed.

Lemma strategyB_loop_spec snake food h vm bd0 sms : forall best maxSpace,
  (forall e, e ∈ sms ->
     List.find (fun m => bool_decide (dir m = sdir e)) vm = Some (moveOf h (sdir e))) ->
  strategyB_loop snake food vm sms (from_option sdir bd0 best) maxSpace =
  Ok (from_option sdir bd0
        (pick_max (fun e => spaceVirtual snake food (move h (sdir e))) sms best maxSpace)).
Proof.
  induction sms as [|e sms IH]; intros best maxSpace Hfind; [done|].
  cbn [strategyB_loop pick_max]. rewrite (Hfind e) by by left.
  cbn [mbind result_bind].
  change (mkPoint (mx (moveOf h (sdir e))) (my (moveOf h (sdir e))))
    with (cellOf (moveOf h (sdir e))).
  rewrite cellOf_moveOf, strategyB_space.
  destruct (_ >? _).
  - apply (IH (Some e)). intros e' He'. apply Hfind. by right.
  - apply IH. intros e' He'. apply Hfind. by right.
Qed.

Lemma strategyC_loop_spec snake moves : forall best maxSpace,
  strategyC_loop snake moves (dir <$> best) maxSpace =
  dir <$> pick_max (fun m => spaceCurrent snake (cellOf m)) moves best maxSpace.
Proof.
  induction moves as [|m moves IH]; intros best maxSpace; [done|].
  cbn [strategyC_loop pick_max]. rewrite slice_0_m1_removelast.
  fold (cellOf m). fold (spaceCurrent snake (cellOf m)).
  destruct (_ >? _); [apply (IH (Some m))|apply IH].
Qed.

Lemma pick_max_nonempty {A} (score : A -> Z) l :
  l <> [] -> (forall y, y ∈ l -> 1 <= score y) ->
  exists x, pick_max score l None (-1) = Some x /\ first_max_in score l x.
Proof.
  intros Hl Hpos. destruct (pick_max_spec score l None (-1))
    as [[_ Hall]|(x & Hx & _ & Hmax)]; [|by exists x].
  destruct l as [|a l]; [done|].
  assert (a ∈ a :: l) as Ha by by left.
  specialize (Hall a Ha). specialize (Hpos a Ha). lia.
Qed.

Lemma index_head {A} (l : list A) :
  index l 0 = match head l with Some x => Ok x | None => TypeError end.
Proof. by destruct l. Qed.

Lemma getNextAutoMove_cases snake food h rest vm sm mwf :
  snake = h :: rest ->
  vm = validMovesOf snake h ->
  sm = omap (safeEntry snake food) vm ->
  mwf = List.filter (fun m => bool_decide (distToFood m <> None)) sm ->
  (vm = [] /\ getNextAutoMove snake food = Ok None) \/
  (vm <> [] /\
   exists x, first_min_in (fun e => default 0 (distToFood e)) mwf x /\
             getNextAutoMove snake food = Ok (Some (sdir x))) \/
  (vm <> [] /\ mwf = [] /\
   exists x, first_max_in (fun e => spaceVirtual snake food (move h (sdir e))) sm x /\
             getNextAutoMove snake food = Ok (Some (sdir x))) \/
  (vm <> [] /\ sm = [] /\
   exists x, first_max_in (fun m => spaceCurrent snake (cellOf m)) vm x /\
             getNextAutoMove snake food = Ok (Some (dir x))).
Proof.
  intros Hsnake Hvm Hsm Hmwf. unfold getNextAutoMove.
  replace (index snake 0) with (Ok h) by (by rewrite Hsnake).
  cbn [mbind result_bind]. rewrite <- Hvm.
  destruct (decide (vm = [])) as [Hnil|Hnil].
  { left. split; [done|]. by rewrite Hnil. }
  right. replace (length vm =? 0)%nat with false by (by destruct vm).
  rewrite safeMoves_loop_spec. cbn [mbind result_bind]. rewrite app_nil_l.
  rewrite <- Hsm, <- Hmwf.
  destruct (decide (mwf = [])) as [Hmnil|Hmnil].
  2:{ left. split; [done|].
      replace (0 <? length mwf)%nat with true by (by destruct mwf).
      destruct (Array_sort_head (fun e => default 0 (distToFood e)) mwf Hmnil)
        as (x & Hhead & Hmin).
      exists x. split; [done|]. by rewrite index_head, Hhead. }
  right. replace (0 <? length mwf)%nat with false by (by rewrite Hmnil).
  destruct (decide (sm = [])) as [Hsnil|Hsnil].
  - right. split; [done|]. split; [done|].
    replace (0 <? length sm)%nat with false by (by rewrite Hsnil).
    change (@None Direction) with (dir <$> (@None Move)).
    rewrite strategyC_loop_spec.
    destruct (pick_max_nonempty (fun m => spaceCurrent snake (cellOf m)) vm Hnil)
      as (x & Hx & Hmax).
    { intros y _. apply getAccessibleAreaSize_pos. }
    rewrite Hx. exists x. split; [exact Hmax|reflexivity].
  - left. split; [done|]. split; [done|].
    replace (0 <? length sm)%nat with true by (by destruct sm).
    assert (exists first, index sm 0 = Ok first) as [first Hfirst].
    { destruct sm as [|first sm']; [done|]. by exists first. }
    rewrite Hfirst. cbn [mbind result_bind].
    rewrite (strategyB_loop_spec snake food h vm (sdir first) sm None).
    2:{ intros e He. rewrite Hvm. apply (safeMoves_find snake food).
        by rewrite <- Hvm, <- Hsm. }
    destruct (pick_max_nonempty
                (fun e => spaceVirtual snake food (move h (sdir e))) sm Hsnil)
      as (x & Hx & Hmax).
    { intros y _. apply getAccessibleAreaSize_pos. }
    rewrite Hx. exists x. split; [exact Hmax|reflexivity].
Qed.

(** ** Safe moves *)

Lemma elem_of_safeMoves snake food h e :
  e ∈ omap (safeEntry snake food) (validMovesOf snake h) <->
  exists d, safe snake food h d /\
            e = mkSafeMove d (distToFoodOf snake food (move h d)) 0.
Proof.
  rewrite list_elem_of_omap. split.
  - intros (m & (d & -> & Hc)%validMoves_candidate & He). exists d.
    unfold safeEntry in He. rewrite cellOf_moveOf in He. cbv zeta in He.
    unfold safe. destruct (getPath _ _ _) as [p|]; [|discriminate].
    split; [done|]. simpl in He. congruence.
  - intros (d & [Hc Hp] & ->). exists (moveOf h d).
    split; [apply validMoves_candidate; by exists d|].
    unfold safeEntry. rewrite cellOf_moveOf. cbv zeta.
    by destruct (getPath _ _ _).
Qed.

Lemma safeMoves_ranked snake food h :
  ranked (fun e => rank (sdir e)) (omap (safeEntry snake food) (validMovesOf snake h)).
Proof.
  apply (ranked_omap (fun m => rank (dir m))); [|apply validMoves_ranked].
  intros m e He. by rewrite (safeEntry_dir _ _ _ _ He).
Qed.

Lemma first_min_in_elem {A} (cost : A -> Z) l x : first_min_in cost l x -> x ∈ l.
Proof. intros (l1 & l2 & -> & _). apply elem_of_app. right. by left. Qed.

Lemma first_max_in_elem {A} (score : A -> Z) l x : first_max_in score l x -> x ∈ l.
Proof. intros (l1 & l2 & -> & _). apply elem_of_app. right. by left. Qed.

Lemma elem_of_List_filter {A} (f : A -> bool) l x :
  x ∈ List.filter f l <-> x ∈ l /\ f x = true.
Proof. by rewrite !list_elem_of_In, filter_In. Qed.

(** The head of a non-empty body. *)
Lemma head_cons {A} (l : list A) h : head l = Some h -> exists rest, l = h :: rest.
Proof. destruct l as [|a l]; [done|]. intros [= ->]. by exists l. Qed.

(** Whatever direction is returned is a candidate; the safe ones win. *)
Lemma getNextAutoMove_result snake food h :
  head snake = Some h ->
  ((forall d, ~ candidate snake h d) /\ getNextAutoMove snake food = Ok None) \/
  (exists d, getNextAutoMove snake food = Ok (Some d) /\ candidate snake h d /\
             ((exists d', safe snake food h d') -> safe snake food h d)).
Proof.
  intros (rest & Hsnake)%head_cons.
  destruct (getNextAutoMove_cases snake food h rest _ _ _ Hsnake
              eq_refl eq_refl eq_refl)
    as [[Hvm Hr]|[(Hvm & x & Hx & Hr)|[(Hvm & _ & x & Hx & Hr)|(Hvm & Hsm & x & Hx & Hr)]]].
  - left. split; [|done]. intros d Hd.
    assert (moveOf h d ∈ validMovesOf snake h) as Hin
      by (apply validMoves_candidate; by exists d).
    rewrite Hvm in Hin. by apply elem_of_nil in Hin.
  - right. apply first_min_in_elem, elem_of_List_filter in Hx as [Hx _].
    apply elem_of_safeMoves in Hx as (d & Hd & ->). exists d.
    split; [done|]. split; [by destruct Hd|done].
  - right. apply first_max_in_elem, elem_of_safeMoves in Hx as (d & Hd & ->).
    exists d. split; [done|]. split; [by destruct Hd|done].
  - right. apply first_max_in_elem, validMoves_candidate in Hx as (d & -> & Hd).
    exists d. split; [done|]. split; [done|]. intros (d' & Hd').
    assert (mkSafeMove d' (distToFoodOf snake food (move h d')) 0
              ∈ omap (safeEntry snake food) (validMovesOf snake h)) as Hin
      by (apply elem_of_safeMoves; by exists d').
    rewrite Hsm in Hin. by apply elem_of_nil in Hin.
Qed.

(** ** Candidates and legal cells *)

Lemma move_neq p d : move p d <> p.
Proof. destruct p, d; simpl; intros [= ?]; lia. Qed.

Lemma inBounds_dec p : {inBounds p} + {~ inBounds p}.
Proof.
  destruct (outOfBounds (px p) (py p)) eqn:H.
  - right. intros Hi%outOfBounds_false. congruence.
  - left. by apply outOfBounds_false.
Qed.

Lemma onBody_dec snake c : {onBody snake c} + {~ onBody snake c}.
Proof.
  pose proof (isBody_onBody snake (mkMove UP (px c) (py c))) as H.
  assert (cellOf (mkMove UP (px c) (py c)) = c) as Hc by by destruct c.
  rewrite Hc in H. destruct (existsb _ _).
  - left. by apply H.
  - right. intros Hb%H. done.
Qed.

Lemma not_candidate snake h d :
  ~ candidate snake h d <->
  ~ inBounds (move h d) \/ isNeck snake (move h d) \/ onBody snake (move h d).
Proof.
  unfold candidate, isNeck. split; [|tauto]. intros Hn.
  destruct (inBounds_dec (move h d)); [|tauto].
  destruct (onBody_dec snake (move h d)); [tauto|].
  destruct (decide (snake !! 1%nat = Some (move h d))); tauto.
Qed.

(** On this board a head always has a second neighbour on the board, so the
    neck test only ever rejects a cell that is on the body or that leaves
    another candidate. *)
Lemma no_candidate_no_legal snake h :
  head snake = Some h -> inBounds h ->
  (forall d, ~ candidate snake h d) -> forall d, ~ legal snake (move h d).
Proof.
  intros (rest & ->)%head_cons Hh Hnone d0 [Hin Hbody].
  assert (isNeck (h :: rest) (move h d0)) as Hneck.
  { destruct (proj1 (not_candidate _ _ _) (Hnone d0)) as [?|[?|?]]; done. }
  unfold isNeck in Hneck. destruct rest as [|n rest]; [done|].
  simpl in Hneck. injection Hneck as ->.
  destruct rest as [|t rest].
  - assert (exists d1, inBounds (move h d1) /\ move h d1 <> move h d0) as (d1 & Hb1 & Hne).
    { unfold inBounds, BOARD_WIDTH, BOARD_HEIGHT in *.
      destruct h as [hx hy]. simpl in *.
      destruct d0; simpl in *.
      - destruct (decide (1 <= hx)); [exists LEFT|exists RIGHT]; simpl;
          (split; [lia|intros [= ?]; lia]).
      - destruct (decide (1 <= hx)); [exists LEFT|exists RIGHT]; simpl;
          (split; [lia|intros [= ?]; lia]).
      - destruct (decide (1 <= hy)); [exists UP|exists DOWN]; simpl;
          (split; [lia|intros [= ?]; lia]).
      - destruct (decide (1 <= hy)); [exists UP|exists DOWN]; simpl;
          (split; [lia|intros [= ?]; lia]). }
    apply (Hnone d1). split; [done|]. split.
    + unfold isNeck. simpl. congruence.
    + intros (i & Hi & Hc). simpl in Hi.
      destruct i as [|i]; [|lia]. simpl in Hc. injection Hc as Hc.
      symmetry in Hc. by apply move_neq in Hc.
  - apply Hbody. exists 1%nat. split; [simpl; lia|done].
Qed.

(** ** Deciding the hypotheses on concrete boards *)

Global Instance inBounds_decision p : Decision (inBounds p).
Proof. unfold inBounds. apply _. Defined.

Lemma valid_input_compute snake food :
  bool_decide (snake <> [] /\ NoDup snake /\ Forall inBounds snake /\
               inBounds food /\ food ∉ snake) = true ->
  valid_input snake food.
Proof. intros H. by apply bool_decide_eq_true in H. Qed.

Lemma candidate_compute snake h d :
  bool_decide (moveOf h d ∈ validMovesOf snake h) = true -> candidate snake h d.
Proof.
  intros H%bool_decide_eq_true%validMoves_candidate.
  destruct H as (d' & Heq & Hc). by injection Heq as <- _ _.
Qed.

Lemma not_candidate_compute snake h d :
  bool_decide (moveOf h d ∈ validMovesOf snake h) = false -> ~ candidate snake h d.
Proof.
  intros H%bool_decide_eq_false Hc. apply H, validMoves_candidate. by exists d.
Qed.

(** * The claims *)

(** ** The pathfinder and the flood fill *)

(** C6: [getPath] returns a route whose length is the graph distance from
    [start] to [goal] in the grid without the obstacle cells (the start
    itself is never tested against the obstacles), returns no route exactly
    when [goal] cannot be reached, and returns the empty route when
    [start] is [goal]. *)
Theorem getPath_shortest (start goal : Point) (obs : gset key) :
  match getPath start goal obs with
  | Some path =>
      connects obs start goal path /\ distance obs start goal (length path)
  | None => ~ reachable obs start goal
  end /\
  (getPath start goal obs = None <-> ~ reachable obs start goal) /\
  getPath start start obs = Some [].
Proof.
  split; [|split].
  - destruct (getPath start goal obs) as [path|] eqn:Hp.
    + by apply getPath_Some.
    + by apply getPath_None.
  - apply getPath_None.
  - apply getPath_same.
Qed.

(** C10: a route returned by [getPath] is a valid walk: every cell entered
    after [start] is on the board and not an obstacle, no cell is visited
    twice, and the last cell is [goal]. *)
Theorem getPath_valid_walk (start goal : Point) (obs : gset key)
    (path : list Direction) :
  getPath start goal obs = Some path ->
  Forall (fun c => inBounds c /\ pKey c ∉ obs) (tail (trace start path)) /\
  NoDup (trace start path) /\
  last (trace start path) = Some goal.
Proof.
  intros [[Hw Hf] [_ Hmin]]%getPath_Some. split; [|split].
  - by apply (walk_trace obs).
  - apply (shortest_NoDup obs); [done|]. by rewrite Hf.
  - by rewrite last_trace, Hf.
Qed.

Lemma getPath_valid_walk_witness :
  getPath (mkPoint 2 1) (mkPoint 2 0) ∅ = Some [UP] /\
  (Forall (fun c => inBounds c /\ pKey c ∉ (∅ : gset key))
     (tail (trace (mkPoint 2 1) [UP])) /\
   NoDup (trace (mkPoint 2 1) [UP]) /\
   last (trace (mkPoint 2 1) [UP]) = Some (mkPoint 2 0)).
Proof.
  split; [by vm_compute|].
  apply (getPath_valid_walk (mkPoint 2 1) (mkPoint 2 0) ∅ [UP]). by vm_compute.
Defined.

(** C8: from a start cell that is on the board and not an obstacle,
    [getAccessibleAreaSize] returns the number of cells of the connected
    component of [start] in the grid without the obstacle cells; that number
    is at least 1. *)
Theorem getAccessibleAreaSize_component (start : Point) (obs : gset key) :
  free obs start ->
  1 <= getAccessibleAreaSize start obs /\
  exists cells : list Point,
    NoDup cells /\
    (forall c, c ∈ cells <-> component obs start c) /\
    getAccessibleAreaSize start obs = Z.of_nat (length cells).
Proof.
  intros Hfree. split; [apply getAccessibleAreaSize_pos|].
  destruct (getAccessibleAreaSize_visited start obs) as (v & Hv & ->).
  exists (unKey <$> elements v). split; [|split].
  - apply NoDup_fmap_2_strong; [|apply NoDup_elements].
    intros [a b] [a' b'] _ _. unfold unKey. simpl. congruence.
  - intros c. rewrite <- reachable_component, <- Hv by done.
    rewrite list_elem_of_fmap. split.
    + intros ([a b] & -> & Hin%elem_of_elements). done.
    + intros Hc. exists (pKey c). split; [by destruct c|by apply elem_of_elements].
  - by rewrite length_fmap.
Qed.

Lemma getAccessibleAreaSize_component_witness :
  free ∅ (mkPoint 0 0) /\
  1 <= getAccessibleAreaSize (mkPoint 0 0) ∅ /\
  exists cells : list Point,
    NoDup cells /\
    (forall c, c ∈ cells <-> component ∅ (mkPoint 0 0) c) /\
    getAccessibleAreaSize (mkPoint 0 0) ∅ = Z.of_nat (length cells).
Proof.
  assert (free ∅ (mkPoint 0 0)) as Hfree.
  { split; [by vm_compute|]. apply not_elem_of_empty. }
  split; [exact Hfree|].
  exact (getAccessibleAreaSize_component (mkPoint 0 0) ∅ Hfree).
Defined.

(** ** The move simulator *)

(** C5: the virtual snake built for a step to [c] is [c] followed by the
    whole body when [c] is the food and [c] followed by the body without its
    last cell otherwise; the virtual tail is the last cell of the virtual
    snake and the obstacles of the safety check are the virtual snake
    without that last cell. *)
Theorem simulate_virtual_state (snake : list Point) (food c : Point) :
  virtualSnakeOf snake food c =
    (if decide (c = food) then c :: snake else c :: removelast snake) /\
  exists virtualTail,
    virtualTailOf (virtualSnakeOf snake food c) = Ok virtualTail /\
    last (virtualSnakeOf snake food c) = Some virtualTail /\
    obstaclesArrOf (virtualSnakeOf snake food c) =
      removelast (virtualSnakeOf snake food c) /\
    virtualSnakeOf snake food c =
      obstaclesArrOf (virtualSnakeOf snake food c) ++ [virtualTail].
Proof.
  split; [apply virtualSnakeOf_eq|].
  exists (virtualTail snake food c). split; [apply virtualTailOf_eq|].
  unfold obstaclesArrOf. rewrite slice_0_m1_removelast, virtualSnakeOf_eq.
  pose proof (virtualBody_nonempty snake food c) as Hne.
  unfold virtualTail.
  destruct (exists_last Hne) as (l & a & ->).
  rewrite List.last_last, removelast_last, last_snoc. done.
Qed.

(** ** The decision policy *)

(** C1: on a valid input, a returned direction leads the head to a cell on
    the board that no body cell other than the current tail occupies, and
    when no direction is returned no direction leads to such a cell.  The
    call does not throw. *)
Theorem decide_legal (snake : list Point) (food h : Point) :
  valid_input snake food ->
  head snake = Some h ->
  (exists r, getNextAutoMove snake food = Ok r) /\
  (forall d, getNextAutoMove snake food = Ok (Some d) -> legal snake (move h d)) /\
  (getNextAutoMove snake food = Ok None -> forall d, ~ legal snake (move h d)).
Proof.
  intros (_ & _ & Hin & _ & _) Hh.
  assert (inBounds h) as Hb.
  { destruct (head_cons _ _ Hh) as (rest & ->). by apply Forall_cons in Hin as [? _]. }
  destruct (getNextAutoMove_result snake food h Hh)
    as [[Hnone Hr]|(d & Hr & (Hc & _ & Hbody) & _)]; rewrite Hr.
  - split; [by eexists|]. split; [done|]. intros _.
    by apply no_candidate_no_legal.
  - split; [by eexists|]. split; [|done]. by intros d' [= <-].
Qed.

Lemma decide_legal_witness :
  valid_input scenarioA_snake scenarioA_food /\
  head scenarioA_snake = Some (mkPoint 2 2) /\
  (exists r, getNextAutoMove scenarioA_snake scenarioA_food = Ok r) /\
  (forall d, getNextAutoMove scenarioA_snake scenarioA_food = Ok (Some d) ->
             legal scenarioA_snake (move (mkPoint 2 2) d)) /\
  (getNextAutoMove scenarioA_snake scenarioA_food = Ok None ->
   forall d, ~ legal scenarioA_snake (move (mkPoint 2 2) d)).
Proof.
  assert (valid_input scenarioA_snake scenarioA_food) as Hv
    by (apply valid_input_compute; by vm_compute).
  split; [exact Hv|]. split; [reflexivity|].
  exact (decide_legal scenarioA_snake scenarioA_food (mkPoint 2 2) Hv eq_refl).
Defined.

(** C7: for a non-empty body (so for every valid input), no direction is
    returned exactly when every neighbour of the head is off the board, is
    the neck, or is occupied by a body cell other than the tail; as soon as
    one candidate survives a direction is returned, also when no candidate
    is safe (the emergency strategy). *)
Theorem decide_none_iff (snake : list Point) (food h : Point) :
  head snake = Some h ->
  (getNextAutoMove snake food = Ok None <->
   forall d, ~ inBounds (move h d) \/ isNeck snake (move h d) \/ onBody snake (move h d)) /\
  ((exists d, candidate snake h d) ->
   exists d, getNextAutoMove snake food = Ok (Some d)) /\
  ((exists d, candidate snake h d) -> (forall d, ~ safe snake food h d) ->
   exists d, getNextAutoMove snake food = Ok (Some d) /\ candidate snake h d).
Proof.
  intros Hh.
  destruct (getNextAutoMove_result snake food h Hh)
    as [[Hnone Hr]|(d & Hr & Hc & _)]; rewrite Hr.
  - split; [|split].
    + split; [|done]. intros _ d. by apply not_candidate.
    + intros [d Hd]. by destruct (Hnone d).
    + intros [d Hd]. by destruct (Hnone d).
  - split; [|split].
    + split; [done|]. intros Hall. by destruct (proj2 (not_candidate _ _ _) (Hall d)).
    + intros _. by exists d.
    + intros _ _. by exists d.
Qed.

Lemma decide_none_iff_witness :
  head boxed_snake = Some (mkPoint 0 0) /\
  (getNextAutoMove boxed_snake (mkPoint 5 5) = Ok None <->
   forall d, ~ inBounds (move (mkPoint 0 0) d) \/
             isNeck boxed_snake (move (mkPoint 0 0) d) \/
             onBody boxed_snake (move (mkPoint 0 0) d)) /\
  ((exists d, candidate boxed_snake (mkPoint 0 0) d) ->
   exists d, getNextAutoMove boxed_snake (mkPoint 5 5) = Ok (Some d)) /\
  ((exists d, candidate boxed_snake (mkPoint 0 0) d) ->
   (forall d, ~ safe boxed_snake (mkPoint 5 5) (mkPoint 0 0) d) ->
   exists d, getNextAutoMove boxed_snake (mkPoint 5 5) = Ok (Some d) /\
             candidate boxed_snake (mkPoint 0 0) d).
Proof.
  split; [reflexivity|].
  exact (decide_none_iff boxed_snake (mkPoint 5 5) (mkPoint 0 0) eq_refl).
Defined.

(** C3: when some candidate is classified safe, so that the direction is
    chosen by the first or the second strategy, running [getPath] again from
    the chosen virtual head to its virtual tail over the virtual body without
    its last cell yields a route. *)
Theorem decide_tail_reachable (snake : list Point) (food h : Point) :
  head snake = Some h ->
  (exists d, safe snake food h d) ->
  exists d path,
    getNextAutoMove snake food = Ok (Some d) /\
    candidate snake h d /\
    getPath (move h d) (virtualTail snake food (move h d))
      (obstaclesExcludingTail snake food (move h d)) = Some path.
Proof.
  intros Hh Hsafe.
  destruct (getNextAutoMove_result snake food h Hh)
    as [[Hnone _]|(d & Hr & Hc & Hs)].
  - destruct Hsafe as (d & Hd & _). by destruct (Hnone d).
  - destruct (Hs Hsafe) as [_ Hp]. exists d.
    destruct (getPath _ _ _) as [path|]; [|done]. by exists path.
Qed.

Lemma safe_compute snake food h d :
  bool_decide (moveOf h d ∈ validMovesOf snake h) = true ->
  is_Some (getPath (move h d) (virtualTail snake food (move h d))
             (obstaclesExcludingTail snake food (move h d))) ->
  safe snake food h d.
Proof.
  intros Hc [p Hp]. split; [by apply candidate_compute|]. by rewrite Hp.
Qed.

Lemma scenarioA_safe_UP : safe scenarioA_snake scenarioA_food (mkPoint 2 2) UP.
Proof. apply safe_compute; [by vm_compute|]. vm_compute. by eexists. Qed.

Lemma decide_tail_reachable_witness :
  head scenarioA_snake = Some (mkPoint 2 2) /\
  (exists d, safe scenarioA_snake scenarioA_food (mkPoint 2 2) d) /\
  exists d path,
    getNextAutoMove scenarioA_snake scenarioA_food = Ok (Some d) /\
    candidate scenarioA_snake (mkPoint 2 2) d /\
    getPath (move (mkPoint 2 2) d)
      (virtualTail scenarioA_snake scenarioA_food (move (mkPoint 2 2) d))
      (obstaclesExcludingTail scenarioA_snake scenarioA_food (move (mkPoint 2 2) d))
    = Some path.
Proof.
  assert (exists d, safe scenarioA_snake scenarioA_food (mkPoint 2 2) d) as Hs
    by (exists UP; apply scenarioA_safe_UP).
  split; [reflexivity|]. split; [exact Hs|].
  exact (decide_tail_reachable scenarioA_snake scenarioA_food (mkPoint 2 2) eq_refl Hs).
Defined.

Lemma distToFoodOf_Some snake food c z :
  distToFoodOf snake food c = Some z ->
  exists n, z = Z.of_nat n /\
            distance (obstaclesExcludingTail snake food c) c food n.
Proof.
  unfold distToFoodOf. destruct (getPath _ _ _) as [p|] eqn:Hp; [|done].
  intros [= <-]. exists (length p). split; [done|]. by apply getPath_Some.
Qed.

Lemma distToFoodOf_distance snake food c n :
  distance (obstaclesExcludingTail snake food c) c food n ->
  distToFoodOf snake food c = Some (Z.of_nat n).
Proof.
  intros Hd. unfold distToFoodOf. destruct (getPath _ _ _) as [p|] eqn:Hp.
  - apply getPath_Some in Hp as [_ Hp]. by rewrite (distance_unique _ _ _ _ _ Hp Hd).
  - apply getPath_None in Hp. destruct Hd as [(p & Hc & _) _].
    exfalso. apply Hp. by exists p.
Qed.

Lemma distToFoodOf_None snake food c :
  distToFoodOf snake food c = None <->
  ~ reachable (obstaclesExcludingTail snake food c) c food.
Proof.
  unfold distToFoodOf. rewrite <- getPath_None. by destruct (getPath _ _ _).
Qed.

(** C2: when some safe candidate has a finite distance from its virtual
    head to the food over its virtual obstacles, the returned direction is
    the safe candidate with the least such distance, the first in the order
    UP, DOWN, LEFT, RIGHT among equals. *)
Theorem decide_targeted (snake : list Point) (food h : Point) :
  head snake = Some h ->
  (exists d n, safe snake food h d /\
     distance (obstaclesExcludingTail snake food (move h d)) (move h d) food n) ->
  exists d,
    getNextAutoMove snake food = Ok (Some d) /\
    first_least (safe snake food h)
      (fun d n =>
         distance (obstaclesExcludingTail snake food (move h d)) (move h d) food n)
      d.
Proof.
  intros Hh (d0 & n0 & Hs0 & Hd0).
  destruct (head_cons _ _ Hh) as (rest & Hsnake).
  set (sm := omap (safeEntry snake food) (validMovesOf snake h)).
  set (mwf := List.filter (fun m => bool_decide (distToFood m <> None)) sm).
  assert (forall d n, safe snake food h d ->
            distance (obstaclesExcludingTail snake food (move h d)) (move h d) food n ->
            mkSafeMove d (Some (Z.of_nat n)) 0 ∈ mwf) as Hin.
  { intros d n Hs Hd. apply elem_of_List_filter. split; [|done].
    apply elem_of_safeMoves. exists d. split; [done|].
    by rewrite (distToFoodOf_distance _ _ _ _ Hd). }
  destruct (getNextAutoMove_cases snake food h rest _ sm mwf Hsnake
              eq_refl eq_refl eq_refl)
    as [[Hvm _]|[(_ & x & Hx & Hr)|[(_ & Hnil & _)|(_ & Hnil & _)]]].
  - specialize (Hin d0 n0 Hs0 Hd0).
    apply elem_of_List_filter in Hin as [Hin _]. unfold sm in Hin.
    rewrite Hvm in Hin. by apply elem_of_nil in Hin.
  - pose proof (first_min_in_elem _ _ _ Hx) as Hxin.
    apply elem_of_List_filter in Hxin as [Hxin Hdist].
    apply elem_of_safeMoves in Hxin as (d & Hs & ->). simpl in Hdist, Hr.
    destruct (distToFoodOf snake food (move h d)) as [z|] eqn:Hz;
      [|by apply bool_decide_eq_true in Hdist].
    destruct (distToFoodOf_Some _ _ _ _ Hz) as (n & -> & Hd).
    exists d. split; [done|]. exists n. split; [done|]. split; [done|].
    intros d' n' Hs' Hd'. specialize (Hin d' n' Hs' Hd').
    destruct Hx as (l1 & l2 & Hsplit & H1 & H2). rewrite Hsplit in Hin.
    assert (ranked (fun e => rank (sdir e)) (l1 ++ mkSafeMove d (Some (Z.of_nat n)) 0 :: l2))
      as Hrk.
    { rewrite <- Hsplit. apply ranked_filter, safeMoves_ranked. }
    apply ranked_split in Hrk as [_ Hrk2].
    apply elem_of_app in Hin as [Hin|[Heq|Hin]%elem_of_cons].
    + specialize (H1 _ Hin). simpl in H1. lia.
    + injection Heq as -> Hn. apply Nat2Z.inj in Hn. lia.
    + specialize (H2 _ Hin). specialize (Hrk2 _ Hin). simpl in H2, Hrk2. lia.
  - specialize (Hin d0 n0 Hs0 Hd0). rewrite Hnil in Hin. by apply elem_of_nil in Hin.
  - specialize (Hin d0 n0 Hs0 Hd0).
    apply elem_of_List_filter in Hin as [Hin _]. rewrite Hnil in Hin.
    by apply elem_of_nil in Hin.
Qed.

Lemma scenarioA_distance_UP :
  distance (obstaclesExcludingTail scenarioA_snake scenarioA_food (move (mkPoint 2 2) UP))
    (move (mkPoint 2 2) UP) scenarioA_food 1.
Proof.
  assert (getPath (move (mkPoint 2 2) UP) scenarioA_food
            (obstaclesExcludingTail scenarioA_snake scenarioA_food (move (mkPoint 2 2) UP))
          = Some [UP]) as Hp by (by vm_compute).
  by apply getPath_Some in Hp as [_ Hp].
Qed.

Lemma decide_targeted_witness :
  head scenarioA_snake = Some (mkPoint 2 2) /\
  (exists d n, safe scenarioA_snake scenarioA_food (mkPoint 2 2) d /\
     distance (obstaclesExcludingTail scenarioA_snake scenarioA_food (move (mkPoint 2 2) d))
       (move (mkPoint 2 2) d) scenarioA_food n) /\
  exists d,
    getNextAutoMove scenarioA_snake scenarioA_food = Ok (Some d) /\
    first_least (safe scenarioA_snake scenarioA_food (mkPoint 2 2))
      (fun d n =>
         distance (obstaclesExcludingTail scenarioA_snake scenarioA_food (move (mkPoint 2 2) d))
           (move (mkPoint 2 2) d) scenarioA_food n)
      d.
Proof.
  assert (exists d n, safe scenarioA_snake scenarioA_food (mkPoint 2 2) d /\
     distance (obstaclesExcludingTail scenarioA_snake scenarioA_food (move (mkPoint 2 2) d))
       (move (mkPoint 2 2) d) scenarioA_food n) as Hex.
  { exists UP, 1%nat. split; [apply scenarioA_safe_UP|apply scenarioA_distance_UP]. }
  split; [reflexivity|]. split; [exact Hex|].
  exact (decide_targeted scenarioA_snake scenarioA_food (mkPoint 2 2) eq_refl Hex).
Defined.

(** C4, as the code has it: when safe candidates exist and none of them
    reaches the food, the returned direction is the safe candidate with the
    largest flood-fill count from its virtual head over the whole virtual
    body, virtual tail included, the first in the order UP, DOWN, LEFT,
    RIGHT among equals. *)
Theorem decide_space_maximizing (snake : list Point) (food h : Point) :
  head snake = Some h ->
  (exists d, safe snake food h d) ->
  (forall d, safe snake food h d ->
     ~ reachable (obstaclesExcludingTail snake food (move h d)) (move h d) food) ->
  exists d,
    getNextAutoMove snake food = Ok (Some d) /\
    first_greatest (safe snake food h)
      (fun d => spaceVirtual snake food (move h d)) d.
Proof.
  intros Hh (d0 & Hs0) Hblocked.
  destruct (head_cons _ _ Hh) as (rest & Hsnake).
  set (sm := omap (safeEntry snake food) (validMovesOf snake h)).
  set (mwf := List.filter (fun m => bool_decide (distToFood m <> None)) sm).
  assert (forall d, safe snake food h d ->
            mkSafeMove d None 0 ∈ sm) as Hin.
  { intros d Hs. apply elem_of_safeMoves. exists d. split; [done|].
    by rewrite (proj2 (distToFoodOf_None _ _ _) (Hblocked d Hs)). }
  destruct (getNextAutoMove_cases snake food h rest _ sm mwf Hsnake
              eq_refl eq_refl eq_refl)
    as [[Hvm _]|[(_ & x & Hx & _)|[(_ & _ & x & Hx & Hr)|(_ & Hnil & _)]]].
  - specialize (Hin d0 Hs0). unfold sm in Hin. rewrite Hvm in Hin.
    by apply elem_of_nil in Hin.
  - apply first_min_in_elem, elem_of_List_filter in Hx as [Hxin Hdist].
    apply elem_of_safeMoves in Hxin as (d & Hs & ->). simpl in Hdist.
    rewrite (proj2 (distToFoodOf_None _ _ _) (Hblocked d Hs)) in Hdist.
    by apply bool_decide_eq_true in Hdist.
  - pose proof (first_max_in_elem _ _ _ Hx) as Hxin.
    apply elem_of_safeMoves in Hxin as (d & Hs & Hxd).
    rewrite (proj2 (distToFoodOf_None _ _ _) (Hblocked d Hs)) in Hxd. subst x.
    simpl in Hr. exists d. split; [done|]. split; [done|].
    intros d' Hs'. specialize (Hin d' Hs').
    destruct Hx as (l1 & l2 & Hsplit & H1 & H2). rewrite Hsplit in Hin.
    assert (ranked (fun e => rank (sdir e)) (l1 ++ mkSafeMove d None 0 :: l2)) as Hrk.
    { rewrite <- Hsplit. apply safeMoves_ranked. }
    apply ranked_split in Hrk as [_ Hrk2].
    apply elem_of_app in Hin as [Hin|[Heq|Hin]%elem_of_cons].
    + specialize (H1 _ Hin). simpl in H1. lia.
    + injection Heq as ->. lia.
    + specialize (H2 _ Hin). specialize (Hrk2 _ Hin). simpl in H2, Hrk2. lia.
  - specialize (Hin d0 Hs0). rewrite Hnil in Hin. by apply elem_of_nil in Hin.
Qed.

Lemma pocket_safe_DOWN : safe pocket_snake pocket_food (mkPoint 2 0) DOWN.
Proof. apply safe_compute; [by vm_compute|]. vm_compute. by eexists. Qed.

Lemma pocket_safe_RIGHT : safe pocket_snake pocket_food (mkPoint 2 0) RIGHT.
Proof. apply safe_compute; [by vm_compute|]. vm_compute. by eexists. Qed.

Lemma pocket_food_blocked d :
  safe pocket_snake pocket_food (mkPoint 2 0) d ->
  ~ reachable (obstaclesExcludingTail pocket_snake pocket_food (move (mkPoint 2 0) d))
      (move (mkPoint 2 0) d) pocket_food.
Proof.
  intros [Hc _]. destruct d.
  - exfalso. revert Hc. apply not_candidate_compute. by vm_compute.
  - apply getPath_None. by vm_compute.
  - exfalso. revert Hc. apply not_candidate_compute. by vm_compute.
  - apply getPath_None. by vm_compute.
Qed.

Lemma decide_space_maximizing_witness :
  head pocket_snake = Some (mkPoint 2 0) /\
  (exists d, safe pocket_snake pocket_food (mkPoint 2 0) d) /\
  (forall d, safe pocket_snake pocket_food (mkPoint 2 0) d ->
     ~ reachable (obstaclesExcludingTail pocket_snake pocket_food (move (mkPoint 2 0) d))
         (move (mkPoint 2 0) d) pocket_food) /\
  exists d,
    getNextAutoMove pocket_snake pocket_food = Ok (Some d) /\
    first_greatest (safe pocket_snake pocket_food (mkPoint 2 0))
      (fun d => spaceVirtual pocket_snake pocket_food (move (mkPoint 2 0) d)) d.
Proof.
  assert (exists d, safe pocket_snake pocket_food (mkPoint 2 0) d) as Hex
    by (exists DOWN; apply pocket_safe_DOWN).
  split; [reflexivity|]. split; [exact Hex|]. split; [exact pocket_food_blocked|].
  exact (decide_space_maximizing pocket_snake pocket_food (mkPoint 2 0)
           eq_refl Hex pocket_food_blocked).
Defined.

(** C4 as the claim words it fails: on the pocket board the input is valid,
    DOWN and RIGHT are the safe candidates and neither reaches the food;
    over the virtual body without its last cell both flood fills count 616
    cells, which would select DOWN, the first of the two, yet RIGHT is
    returned. *)
Lemma decide_space_excluding_tail_counterexample :
  valid_input pocket_snake pocket_food /\
  head pocket_snake = Some (mkPoint 2 0) /\
  (exists d, safe pocket_snake pocket_food (mkPoint 2 0) d) /\
  (forall d, safe pocket_snake pocket_food (mkPoint 2 0) d ->
     ~ reachable (obstaclesExcludingTail pocket_snake pocket_food (move (mkPoint 2 0) d))
         (move (mkPoint 2 0) d) pocket_food) /\
  spaceExcludingTail pocket_snake pocket_food (move (mkPoint 2 0) DOWN) = 616 /\
  spaceExcludingTail pocket_snake pocket_food (move (mkPoint 2 0) RIGHT) = 616 /\
  getNextAutoMove pocket_snake pocket_food = Ok (Some RIGHT) /\
  ~ exists d,
      getNextAutoMove pocket_snake pocket_food = Ok (Some d) /\
      first_greatest (safe pocket_snake pocket_food (mkPoint 2 0))
        (fun d => spaceExcludingTail pocket_snake pocket_food (move (mkPoint 2 0) d)) d.
Proof.
  assert (spaceExcludingTail pocket_snake pocket_food (move (mkPoint 2 0) DOWN) = 616)
    as Hdown by (by vm_compute).
  assert (spaceExcludingTail pocket_snake pocket_food (move (mkPoint 2 0) RIGHT) = 616)
    as Hright by (by vm_compute).
  assert (getNextAutoMove pocket_snake pocket_food = Ok (Some RIGHT))
    as Hr by (by vm_compute).
  split; [apply valid_input_compute; by vm_compute|]. split; [reflexivity|].
  split; [exists DOWN; apply pocket_safe_DOWN|].
  split; [exact pocket_food_blocked|].
  split; [exact Hdown|]. split; [exact Hright|]. split; [exact Hr|].
  intros (d & Hd & _ & Hmax). rewrite Hr in Hd. injection Hd as <-.
  destruct (Hmax DOWN pocket_safe_DOWN) as [_ Hrank].
  rewrite Hdown, Hright in Hrank. specialize (Hrank eq_refl). simpl in Hrank. lia.
Qed.

(** C9: on scenario A the direction returned is UP, chosen by the first
    strategy: the safe moves are UP, LEFT and RIGHT with distances 1, 3 and
    3 from their virtual heads, the route found from the virtual head of UP
    is [UP], and the whole route from the head, UP then UP, has length 2, is
    a shortest one and ends on the food. *)
Theorem scenarioA_returns_UP :
  getNextAutoMove scenarioA_snake scenarioA_food = Ok (Some UP) /\
  safeMoves_loop scenarioA_snake scenarioA_food
    (validMovesOf scenarioA_snake (mkPoint 2 2)) []
  = Ok [ mkSafeMove UP (Some 1) 0; mkSafeMove LEFT (Some 3) 0;
         mkSafeMove RIGHT (Some 3) 0 ] /\
  getPath (move (mkPoint 2 2) UP) scenarioA_food
    (obstaclesExcludingTail scenarioA_snake scenarioA_food (move (mkPoint 2 2) UP))
  = Some [UP] /\
  getPath (mkPoint 2 2) scenarioA_food (setOfPoints scenarioA_snake) = Some [UP; UP] /\
  distance (setOfPoints scenarioA_snake) (mkPoint 2 2) scenarioA_food 2 /\
  follow (mkPoint 2 2) [UP; UP] = scenarioA_food.
Proof.
  assert (getPath (mkPoint 2 2) scenarioA_food (setOfPoints scenarioA_snake)
          = Some [UP; UP]) as Hp by (by vm_compute).
  split; [by vm_compute|]. split; [by vm_compute|]. split; [by vm_compute|].
  split; [exact Hp|]. split; [|reflexivity].
  by apply getPath_Some in Hp as [_ Hp].
Qed.

(** * Further properties of the code *)

(** ** The searches: edge cases, bounds and monotonicity *)

Lemma free_mono (obs obs' : gset key) p : obs ⊆ obs' -> free obs' p -> free obs p.
Proof. intros Hsub [Hb Ho]. split; [done|]. set_solver. Qed.

Lemma walk_mono (obs obs' : gset key) path : forall p,
  obs ⊆ obs' -> walk obs' p path -> walk obs p path.
Proof.
  induction path as [|d path IH]; intros p Hsub; simpl; [done|].
  intros [Hf Hw]. split; [by eapply free_mono|by apply IH].
Qed.

Lemma reachable_mono (obs obs' : gset key) start c :
  obs ⊆ obs' -> reachable obs' start c -> reachable obs start c.
Proof. intros Hsub (path & Hw & Hf). exists path. split; [by eapply walk_mono|done]. Qed.

Lemma reachable_inv obs start c :
  reachable obs start c -> c = start \/ free obs c.
Proof.
  intros (path & Hw & <-). destruct (decide (path = [])) as [->|Hne]; [by left|].
  destruct (exists_last Hne) as (path' & d & ->).
  apply walk_app in Hw as [_ [Hf _]]. right. by rewrite follow_app.
Qed.

Lemma length_boardKeys : Z.of_nat (length boardKeys) = BOARD_WIDTH * BOARD_HEIGHT.
Proof. by vm_compute. Qed.

Lemma NoDup_length_le {A} (l k : list A) :
  NoDup l -> (forall x, x ∈ l -> x ∈ k) -> (length l <= length k)%nat.
Proof. intros Hnd Hsub. by apply submseteq_length, NoDup_submseteq. Qed.

Lemma free_boardKeys obs c : free obs c -> pKey c ∈ boardKeys.
Proof. intros [Hb _]. by apply elem_of_boardKeys. Qed.

Lemma area_cells start obs :
  exists cells : list Point,
    NoDup cells /\
    (forall c, c ∈ cells <-> reachable obs start c) /\
    getAccessibleAreaSize start obs = Z.of_nat (length cells).
Proof.
  destruct (getAccessibleAreaSize_visited start obs) as (v & Hv & ->).
  exists (unKey <$> elements v). split; [|split].
  - apply NoDup_fmap_2_strong; [|apply NoDup_elements].
    intros [a b] [a' b'] _ _. unfold unKey. simpl. congruence.
  - intros c. rewrite <- Hv, list_elem_of_fmap. split.
    + intros ([a b] & -> & Hin%elem_of_elements). done.
    + intros Hc. exists (pKey c). split; [by destruct c|by apply elem_of_elements].
  - by rewrite length_fmap.
Qed.

(** X1: for every start, also one that is an obstacle or off the board,
    the flood fill counts the cells that a walk over free cells reaches from
    [start], the start included. *)
Theorem getAccessibleAreaSize_counts_reachable (start : Point) (obs : gset key) :
  exists cells : list Point,
    NoDup cells /\
    start ∈ cells /\
    (forall c, c ∈ cells <-> reachable obs start c) /\
    getAccessibleAreaSize start obs = Z.of_nat (length cells).
Proof.
  destruct (area_cells start obs) as (cells & Hnd & Hc & Hlen).
  exists cells. split; [done|]. split; [|done]. apply Hc. by exists [].
Qed.

(** X2: the flood fill counts at least the start and never more than the
    cells of the board, plus one for a start that lies off the board. *)
Theorem getAccessibleAreaSize_bounds (start : Point) (obs : gset key) :
  1 <= getAccessibleAreaSize start obs
    <= BOARD_WIDTH * BOARD_HEIGHT + (if decide (inBounds start) then 0 else 1).
Proof.
  destruct (area_cells start obs) as (cells & Hnd & Hc & Hlen).
  pose proof (getAccessibleAreaSize_pos start obs) as Hpos.
  rewrite Hlen in *. rewrite <- length_boardKeys.
  assert (NoDup (pKey <$> cells)) as Hndk.
  { apply NoDup_fmap_2_strong; [|done]. intros x y _ _. apply pKey_inj. }
  split; [done|]. case_decide as Hb.
  - assert (length (pKey <$> cells) <= length boardKeys)%nat as Hle.
    { apply NoDup_length_le; [done|].
      intros k (c & -> & Hin)%list_elem_of_fmap.
      destruct (reachable_inv _ _ _ (proj1 (Hc c) Hin)) as [->|Hf];
        [by apply elem_of_boardKeys|by eapply free_boardKeys]. }
    rewrite length_fmap in Hle. lia.
  - assert (length (pKey <$> cells) <= length (pKey start :: boardKeys))%nat as Hle.
    { apply NoDup_length_le; [done|].
      intros k (c & -> & Hin)%list_elem_of_fmap.
      destruct (reachable_inv _ _ _ (proj1 (Hc c) Hin)) as [->|Hf]; [by left|].
      right. by eapply free_boardKeys. }
    rewrite length_fmap in Hle.
    change (length (pKey start :: boardKeys)) with (S (length boardKeys)) in Hle.
    lia.
Qed.

(** X3: more obstacles never enlarge the flood-fill count. *)
Theorem getAccessibleAreaSize_antitone (start : Point) (obs obs' : gset key) :
  obs ⊆ obs' ->
  getAccessibleAreaSize start obs' <= getAccessibleAreaSize start obs.
Proof.
  intros Hsub.
  destruct (getAccessibleAreaSize_visited start obs) as (v & Hv & ->).
  destruct (getAccessibleAreaSize_visited start obs') as (v' & Hv' & ->).
  assert (v' ⊆ v) as Hvv.
  { intros [a b] Hk. change (a, b) with (pKey (mkPoint a b)) in *.
    apply Hv. eapply reachable_mono; [done|]. by apply Hv'. }
  apply subseteq_size in Hvv. lia.
Qed.

Lemma getAccessibleAreaSize_antitone_witness :
  (∅ : gset key) ⊆ setOfPoints pocket_snake /\
  getAccessibleAreaSize (mkPoint 3 0) (setOfPoints pocket_snake)
  <= getAccessibleAreaSize (mkPoint 3 0) ∅.
Proof.
  assert ((∅ : gset key) ⊆ setOfPoints pocket_snake) as Hsub
    by apply empty_subseteq.
  split; [exact Hsub|].
  exact (getAccessibleAreaSize_antitone (mkPoint 3 0) ∅ (setOfPoints pocket_snake) Hsub).
Defined.

(** X4: a goal other than the start that is an obstacle or lies off the
    board is never reached: [getPath] returns no route. *)
Theorem getPath_blocked_goal (start goal : Point) (obs : gset key) :
  goal <> start ->
  (~ inBounds goal \/ pKey goal ∈ obs) ->
  getPath start goal obs = None.
Proof.
  intros Hne Hblocked. apply getPath_None. intros Hr.
  destruct (reachable_inv _ _ _ Hr) as [?|[Hb Ho]]; [done|]. tauto.
Qed.

Lemma getPath_blocked_goal_witness :
  mkPoint 0 0 <> mkPoint 2 1 /\
  (~ inBounds (mkPoint 0 0) \/ pKey (mkPoint 0 0) ∈ setOfPoints [mkPoint 0 0]) /\
  getPath (mkPoint 2 1) (mkPoint 0 0) (setOfPoints [mkPoint 0 0]) = None.
Proof.
  assert (mkPoint 0 0 <> mkPoint 2 1) as Hne by discriminate.
  assert (~ inBounds (mkPoint 0 0) \/ pKey (mkPoint 0 0) ∈ setOfPoints [mkPoint 0 0])
    as Hb by (right; by vm_compute).
  split; [exact Hne|]. split; [exact Hb|].
  exact (getPath_blocked_goal (mkPoint 2 1) (mkPoint 0 0) (setOfPoints [mkPoint 0 0]) Hne Hb).
Defined.

(** X5: removing obstacles keeps a goal reachable and never lengthens the
    route that [getPath] returns. *)
Theorem getPath_antitone (start goal : Point) (obs obs' : gset key)
    (path' : list Direction) :
  obs ⊆ obs' ->
  getPath start goal obs' = Some path' ->
  exists path, getPath start goal obs = Some path /\
               (length path <= length path')%nat.
Proof.
  intros Hsub [[Hw Hf] _]%getPath_Some.
  assert (connects obs start goal path') as Hc
    by (split; [by eapply walk_mono|done]).
  destruct (getPath start goal obs) as [path|] eqn:Hp.
  - exists path. split; [done|]. apply getPath_Some in Hp as [_ [_ Hmin]].
    by apply Hmin.
  - apply getPath_None in Hp. exfalso. apply Hp. by exists path'.
Qed.

Lemma getPath_antitone_witness :
  (∅ : gset key) ⊆ setOfPoints scenarioA_snake /\
  getPath (mkPoint 2 2) scenarioA_food (setOfPoints scenarioA_snake) = Some [UP; UP] /\
  exists path, getPath (mkPoint 2 2) scenarioA_food ∅ = Some path /\
               (length path <= length [UP; UP])%nat.
Proof.
  assert ((∅ : gset key) ⊆ setOfPoints scenarioA_snake) as Hsub
    by apply empty_subseteq.
  assert (getPath (mkPoint 2 2) scenarioA_food (setOfPoints scenarioA_snake)
          = Some [UP; UP]) as Hp by (by vm_compute).
  split; [exact Hsub|]. split; [exact Hp|].
  exact (getPath_antitone (mkPoint 2 2) scenarioA_food ∅
           (setOfPoints scenarioA_snake) [UP; UP] Hsub Hp).
Defined.

(** X6: a route returned by [getPath] has at most as many steps as the
    board has cells. *)
Theorem getPath_length_bound (start goal : Point) (obs : gset key)
    (path : list Direction) :
  getPath start goal obs = Some path ->
  Z.of_nat (length path) <= BOARD_WIDTH * BOARD_HEIGHT.
Proof.
  intros [[Hw Hf] [_ Hmin]]%getPath_Some. rewrite <- length_boardKeys.
  assert (NoDup (trace start path)) as Hnd.
  { apply (shortest_NoDup obs); [done|]. by rewrite Hf. }
  apply (walk_trace obs) in Hw.
  assert (length (trace start path) = S (length path)) as Hlen.
  { clear. revert start. induction path as [|d path IH]; intros start; [done|].
    simpl. by rewrite IH. }
  destruct (trace start path) as [|c cells] eqn:Ht; [done|].
  simpl in Hw, Hlen. apply NoDup_cons in Hnd as [_ Hnd].
  assert (length (pKey <$> cells) <= length boardKeys)%nat as Hle.
  { apply NoDup_length_le.
    - apply NoDup_fmap_2_strong; [|done]. intros x y _ _. apply pKey_inj.
    - intros k (c' & -> & Hin)%list_elem_of_fmap.
      rewrite Forall_forall in Hw. by eapply free_boardKeys, Hw. }
  rewrite length_fmap in Hle. lia.
Qed.

Lemma getPath_length_bound_witness :
  getPath (mkPoint 2 1) (mkPoint 2 0) ∅ = Some [UP] /\
  Z.of_nat (length [UP]) <= BOARD_WIDTH * BOARD_HEIGHT.
Proof.
  assert (getPath (mkPoint 2 1) (mkPoint 2 0) ∅ = Some [UP]) as Hp by (by vm_compute).
  split; [exact Hp|].
  exact (getPath_length_bound (mkPoint 2 1) (mkPoint 2 0) ∅ [UP] Hp).
Defined.

(** X7: [getNeighbors] lists exactly the neighbours that are on the board
    and not obstacles, each with the direction that leads to it, in the
    order UP, DOWN, LEFT, RIGHT: at most four, none twice. *)
Theorem getNeighbors_free_in_order (p : Point) (obs : gset key) :
  (forall n d, (n, d) ∈ getNeighbors p obs <->
               n = move p d /\ inBounds n /\ pKey n ∉ obs) /\
  ranked (fun m => rank (snd m)) (getNeighbors p obs) /\
  (length (getNeighbors p obs) <= 4)%nat.
Proof.
  split; [|split].
  - intros n d. apply getNeighbors_spec.
  - unfold getNeighbors. apply ranked_filter. repeat constructor; simpl; lia.
  - unfold getNeighbors. apply List.filter_length_le.
Qed.

(** ** The decision policy: edge cases and the strategies *)

(** X8: [getNextAutoMove] throws exactly on the empty body. *)
Theorem getNextAutoMove_throws_iff_empty (snake : list Point) (food : Point) :
  getNextAutoMove snake food = TypeError <-> snake = [].
Proof.
  split.
  - destruct snake as [|h rest]; [done|]. intros Hr.
    destruct (getNextAutoMove_result (h :: rest) food h eq_refl)
      as [[_ Hn]|(d & Hd & _)]; congruence.
  - by intros ->.
Qed.

Lemma move_inj h d d' : move h d = move h d' -> d = d'.
Proof. destruct h, d, d'; simpl; intros H; try done; injection H; lia. Qed.

(** X9: when candidates exist and none is safe, the returned direction is
    the candidate with the largest flood-fill count over the current body
    without its tail, the first in the order UP, DOWN, LEFT, RIGHT among
    equals. *)
Theorem decide_emergency (snake : list Point) (food h : Point) :
  head snake = Some h ->
  (exists d, candidate snake h d) ->
  (forall d, ~ safe snake food h d) ->
  exists d,
    getNextAutoMove snake food = Ok (Some d) /\
    first_greatest (candidate snake h) (fun d => spaceCurrent snake (move h d)) d.
Proof.
  intros Hh (d0 & Hc0) Hunsafe.
  destruct (head_cons _ _ Hh) as (rest & Hsnake).
  set (vm := validMovesOf snake h).
  set (sm := omap (safeEntry snake food) vm).
  assert (forall e, e ∈ sm -> False) as Hsm.
  { intros e (d & Hs & _)%elem_of_safeMoves. by apply (Hunsafe d). }
  destruct (getNextAutoMove_cases snake food h rest vm sm _ Hsnake
              eq_refl eq_refl eq_refl)
    as [[Hvm _]|[(_ & x & Hx & _)|[(_ & _ & x & Hx & _)|(_ & _ & x & Hx & Hr)]]].
  - assert (moveOf h d0 ∈ vm) as Hin by (apply validMoves_candidate; by exists d0).
    rewrite Hvm in Hin. by apply elem_of_nil in Hin.
  - apply first_min_in_elem, elem_of_List_filter in Hx as [Hx _]. by destruct (Hsm x).
  - apply first_max_in_elem in Hx. by destruct (Hsm x).
  - pose proof (first_max_in_elem _ _ _ Hx) as Hxin.
    apply validMoves_candidate in Hxin as (d & -> & Hc).
    exists d. split; [done|]. split; [done|]. intros d' Hc'.
    assert (moveOf h d' ∈ vm) as Hin by (apply validMoves_candidate; by exists d').
    destruct Hx as (l1 & l2 & Hsplit & H1 & H2). rewrite Hsplit in Hin.
    assert (ranked (fun m => rank (dir m)) (l1 ++ moveOf h d :: l2)) as Hrk.
    { rewrite <- Hsplit. apply validMoves_ranked. }
    apply ranked_split in Hrk as [_ Hrk2].
    apply elem_of_app in Hin as [Hin|[Heq|Hin]%elem_of_cons].
    + specialize (H1 _ Hin). rewrite !cellOf_moveOf in H1. lia.
    + injection Heq as -> _ _. lia.
    + specialize (H2 _ Hin). specialize (Hrk2 _ Hin).
      rewrite !cellOf_moveOf in H2. simpl in Hrk2. lia.
Qed.

Lemma sealed_candidate : exists d, candidate sealed_snake (mkPoint 0 2) d.
Proof. exists DOWN. apply candidate_compute. by vm_compute. Qed.

Lemma sealed_unsafe d : ~ safe sealed_snake sealed_food (mkPoint 0 2) d.
Proof.
  intros [Hc Hp]. destruct d.
  - revert Hc. apply not_candidate_compute. by vm_compute.
  - apply Hp. by vm_compute.
  - revert Hc. apply not_candidate_compute. by vm_compute.
  - revert Hc. apply not_candidate_compute. by vm_compute.
Qed.

Lemma decide_emergency_witness :
  head sealed_snake = Some (mkPoint 0 2) /\
  (exists d, candidate sealed_snake (mkPoint 0 2) d) /\
  (forall d, ~ safe sealed_snake sealed_food (mkPoint 0 2) d) /\
  exists d,
    getNextAutoMove sealed_snake sealed_food = Ok (Some d) /\
    first_greatest (candidate sealed_snake (mkPoint 0 2))
      (fun d => spaceCurrent sealed_snake (move (mkPoint 0 2) d)) d.
Proof.
  split; [reflexivity|]. split; [exact sealed_candidate|].
  split; [exact sealed_unsafe|].
  exact (decide_emergency sealed_snake sealed_food (mkPoint 0 2) eq_refl
           sealed_candidate sealed_unsafe).
Defined.

(** X10: a safe candidate that steps onto the food is the direction
    returned. *)
Theorem decide_eats_adjacent_food (snake : list Point) (food h : Point)
    (d : Direction) :
  head snake = Some h ->
  safe snake food h d ->
  move h d = food ->
  getNextAutoMove snake food = Ok (Some d).
Proof.
  intros Hh Hs Heat.
  destruct (head_cons _ _ Hh) as (rest & Hsnake).
  set (sm := omap (safeEntry snake food) (validMovesOf snake h)).
  set (mwf := List.filter (fun m => bool_decide (distToFood m <> None)) sm).
  assert (distToFoodOf snake food (move h d) = Some 0) as Hzero.
  { unfold distToFoodOf. by rewrite Heat, getPath_same. }
  assert (mkSafeMove d (Some 0) 0 ∈ mwf) as Hin.
  { apply elem_of_List_filter. split; [|done].
    apply elem_of_safeMoves. exists d. split; [done|]. by rewrite Hzero. }
  destruct (getNextAutoMove_cases snake food h rest _ sm mwf Hsnake
              eq_refl eq_refl eq_refl)
    as [[Hvm _]|[(_ & x & Hx & Hr)|[(_ & Hnil & _)|(_ & Hnil & _)]]].
  - apply elem_of_List_filter in Hin as [Hin _]. unfold sm in Hin.
    rewrite Hvm in Hin. by apply elem_of_nil in Hin.
  - rewrite Hr. do 2 f_equal.
    pose proof (first_min_in_elem _ _ _ Hx) as Hxin.
    apply elem_of_List_filter in Hxin as [Hxin Hdist].
    apply elem_of_safeMoves in Hxin as (dx & Hsx & ->). simpl in *.
    destruct (distToFoodOf snake food (move h dx)) as [z|] eqn:Hz;
      [|by apply bool_decide_eq_true in Hdist].
    assert (z <= 0) as Hle.
    { destruct Hx as (l1 & l2 & Hsplit & H1 & H2). rewrite Hsplit in Hin.
      apply elem_of_app in Hin as [Hin|[Heq|Hin]%elem_of_cons].
      - specialize (H1 _ Hin). simpl in H1. lia.
      - injection Heq as _ Hz0. lia.
      - specialize (H2 _ Hin). simpl in H2. lia. }
    unfold distToFoodOf in Hz.
    destruct (getPath (move h dx) food _) as [p|] eqn:Hp; [|done].
    injection Hz as <-. destruct p as [|? ?]; [|simpl in Hle; lia].
    apply getPath_Some in Hp as [[_ Hf] _]. simpl in Hf.
    apply (move_inj h). congruence.
  - rewrite Hnil in Hin. by apply elem_of_nil in Hin.
  - apply elem_of_List_filter in Hin as [Hin _]. rewrite Hnil in Hin.
    by apply elem_of_nil in Hin.
Qed.

Lemma adjacent_food_safe_UP : safe scenarioA_snake adjacent_food (mkPoint 2 2) UP.
Proof. apply safe_compute; [by vm_compute|]. vm_compute. by eexists. Qed.

Lemma decide_eats_adjacent_food_witness :
  head scenarioA_snake = Some (mkPoint 2 2) /\
  safe scenarioA_snake adjacent_food (mkPoint 2 2) UP /\
  move (mkPoint 2 2) UP = adjacent_food /\
  getNextAutoMove scenarioA_snake adjacent_food = Ok (Some UP).
Proof.
  split; [reflexivity|]. split; [exact adjacent_food_safe_UP|].
  split; [reflexivity|].
  exact (decide_eats_adjacent_food scenarioA_snake adjacent_food (mkPoint 2 2) UP
           eq_refl adjacent_food_safe_UP eq_refl).
Defined.

(** X11: a returned direction never leads back onto the neck, also when
    the neck is the tail of a two-cell body. *)
Theorem decide_never_reverses (snake : list Point) (food h : Point)
    (d : Direction) :
  head snake = Some h ->
  getNextAutoMove snake food = Ok (Some d) ->
  snake !! 1%nat <> Some (move h d).
Proof.
  intros Hh Hr.
  destruct (getNextAutoMove_result snake food h Hh)
    as [[_ Hn]|(d' & Hd' & (_ & Hneck & _) & _)]; [congruence|].
  rewrite Hr in Hd'. by injection Hd' as <-.
Qed.

Lemma decide_never_reverses_witness :
  head scenarioA_snake = Some (mkPoint 2 2) /\
  getNextAutoMove scenarioA_snake scenarioA_food = Ok (Some UP) /\
  scenarioA_snake !! 1%nat <> Some (move (mkPoint 2 2) UP).
Proof.
  assert (getNextAutoMove scenarioA_snake scenarioA_food = Ok (Some UP)) as Hr
    by (by vm_compute).
  split; [reflexivity|]. split; [exact Hr|].
  exact (decide_never_reverses scenarioA_snake scenarioA_food (mkPoint 2 2) UP
           eq_refl Hr).
Defined.

(** ** The game step *)

Lemma onBody_removelast snake c : onBody snake c <-> c ∈ removelast snake.
Proof.
  rewrite removelast_firstn_len, list_elem_of_lookup. unfold onBody.
  replace (pred (length snake)) with (length snake - 1)%nat by lia.
  split; intros (i & Hi); exists i; apply lookup_take_Some in Hi || apply lookup_take_Some;
    tauto.
Qed.

Lemma isSelfCollisionFrom_spec len segments c : forall index,
  isSelfCollisionFrom index len segments c = true <->
  exists j, segments !! j = Some c /\ (index + j <> len - 1)%nat.
Proof.
  induction segments as [|s segments IH]; intros index; simpl.
  - split; [done|]. by intros (j & Hj & _).
  - rewrite orb_true_iff, IH. split.
    + intros [Hs|(j & Hj & Hne)].
      * destruct (Nat.eqb_spec index (len - 1)) as [|Hne]; [done|].
        apply andb_true_iff in Hs as [?%Z.eqb_eq ?%Z.eqb_eq].
        exists 0%nat. split; [|lia]. simpl. f_equal.
        destruct s, c; simpl in *; congruence.
      * exists (S j). split; [done|lia].
    + intros ([|j] & Hj & Hne).
      * left. simpl in Hj. injection Hj as ->.
        destruct (Nat.eqb_spec index (len - 1)) as [|_]; [lia|].
        by rewrite !Z.eqb_refl.
      * right. exists j. split; [done|lia].
Qed.

Lemma isSelfCollision_onBody snake c :
  isSelfCollisionFrom 0 (length snake) snake c = true <-> onBody snake c.
Proof.
  rewrite isSelfCollisionFrom_spec. unfold onBody. split.
  - intros (j & Hj & Hne). exists j. split; [|done].
    apply lookup_lt_Some in Hj. lia.
  - intros (j & Hlt & Hj). exists j. split; [done|lia].
Qed.

(** What an advancing step did, whatever the mode. *)
Lemma moveSnake_advanced isAutoMode cd food prevSnake h d newSnake ate :
  head prevSnake = Some h ->
  moveSnake isAutoMode cd food prevSnake = Ok (Advanced d newSnake ate) ->
  inBounds (move h d) /\ ~ onBody prevSnake (move h d) /\
  ((ate = true /\ move h d = food /\ newSnake = move h d :: prevSnake) \/
   (ate = false /\ move h d <> food /\
    newSnake = move h d :: removelast prevSnake)).
Proof.
  intros (rest & ->)%head_cons. unfold moveSnake.
  destruct (if isAutoMode then _ else _) as [[moveDir|]|]; cbn [mbind result_bind];
    [|done..].
  change ((h :: rest) !! 0%nat) with (Some h). cbv beta iota zeta.
  destruct (outOfBounds _ _) eqn:Hb; [done|]. apply outOfBounds_false in Hb.
  destruct (isSelfCollisionFrom _ _ _ _) eqn:Hself; [done|].
  assert (~ onBody (h :: rest) (move h moveDir)) as Hbody.
  { intros Ho%isSelfCollision_onBody. congruence. }
  fold (willEatAt (move h moveDir) food).
  destruct (willEatAt (move h moveDir) food) eqn:Heat.
  - intros [= <- <- <-]. apply willEatAt_true in Heat. tauto.
  - intros [= <- <- <-]. split; [done|]. split; [done|]. right.
    split; [done|]. split; [|done]. intros ?%willEatAt_true. congruence.
Qed.

(** X12: with the autopilot on, a step of a non-empty snake never ends on a
    wall or on the body and never throws: the game ends only when the
    autopilot has no candidate, and otherwise the snake advances in the
    direction that [getNextAutoMove] returned. *)
Theorem autopilot_never_collides (cd : Direction) (food : Point)
    (prevSnake : list Point) (h : Point) :
  head prevSnake = Some h ->
  (moveSnake true cd food prevSnake = Ok (GameOver Trapped) /\
   forall d, ~ candidate prevSnake h d) \/
  (exists d newSnake ate,
     getNextAutoMove prevSnake food = Ok (Some d) /\
     moveSnake true cd food prevSnake = Ok (Advanced d newSnake ate)).
Proof.
  intros Hh. unfold moveSnake.
  destruct (getNextAutoMove_result prevSnake food h Hh)
    as [[Hnone ->]|(d & -> & (Hb & _ & Hbody) & _)]; cbn [mbind result_bind].
  - by left.
  - right. exists d. destruct (head_cons _ _ Hh) as (rest & ->).
    change ((h :: rest) !! 0%nat) with (Some h). cbv beta iota zeta.
    rewrite (proj2 (outOfBounds_false _) Hb).
    destruct (isSelfCollisionFrom _ _ _ _) eqn:Hself.
    { by apply isSelfCollision_onBody in Hself. }
    destruct (_ && _); by eexists _, _.
Qed.

Lemma autopilot_never_collides_witness :
  head scenarioA_snake = Some (mkPoint 2 2) /\
  ((moveSnake true DOWN scenarioA_food scenarioA_snake = Ok (GameOver Trapped) /\
    forall d, ~ candidate scenarioA_snake (mkPoint 2 2) d) \/
   (exists d newSnake ate,
      getNextAutoMove scenarioA_snake scenarioA_food = Ok (Some d) /\
      moveSnake true DOWN scenarioA_food scenarioA_snake
      = Ok (Advanced d newSnake ate))).
Proof.
  split; [reflexivity|].
  exact (autopilot_never_collides DOWN scenarioA_food scenarioA_snake (mkPoint 2 2)
           eq_refl).
Defined.

Lemma chained_removelast snake : chained snake -> chained (removelast snake).
Proof.
  induction snake as [|a [|b rest] IH]; [done..|].
  intros [Hab Hc]. specialize (IH Hc).
  change (removelast (a :: b :: rest)) with (a :: removelast (b :: rest)).
  destruct rest as [|c rest]; [done|].
  change (removelast (b :: c :: rest)) with (b :: removelast (c :: rest)) in *.
  by split.
Qed.

Lemma removelast_sublist {A} (l : list A) : removelast l `sublist_of` l.
Proof.
  rewrite removelast_firstn_len. apply sublist_take.
Qed.

Lemma elem_of_removelast {A} (l : list A) x : x ∈ removelast l -> x ∈ l.
Proof.
  destruct (decide (l = [])) as [->|Hne]; [done|].
  destruct (exists_last Hne) as (l' & a & ->). rewrite removelast_last.
  intros Hx. apply elem_of_app. by left.
Qed.

(** X13: an advancing step keeps the body well formed.  From a body that
    does not cross itself, lies on the board, is chained cell to cell and
    avoids the food, the new body starts at the cell the head moved to, still
    does not cross itself, lies on the board and is chained; it is one cell
    longer exactly when the head reached the food and as long as before
    otherwise. *)
Theorem moveSnake_keeps_body_valid (isAutoMode : bool) (cd : Direction)
    (food : Point) (prevSnake : list Point) (h : Point) (d : Direction)
    (newSnake : list Point) (ate : bool) :
  head prevSnake = Some h ->
  NoDup prevSnake ->
  Forall inBounds prevSnake ->
  chained prevSnake ->
  food ∉ prevSnake ->
  moveSnake isAutoMode cd food prevSnake = Ok (Advanced d newSnake ate) ->
  head newSnake = Some (move h d) /\
  NoDup newSnake /\ Forall inBounds newSnake /\ chained newSnake /\
  (ate = true <-> move h d = food) /\
  length newSnake = (length prevSnake + if ate then 1 else 0)%nat.
Proof.
  intros Hh Hnd Hin Hch Hfood Hstep.
  destruct (moveSnake_advanced _ _ _ _ _ _ _ _ Hh Hstep)
    as (Hb & Hbody & [(-> & Heat & ->)|(-> & Hne & ->)]).
  - destruct (head_cons _ _ Hh) as (rest & ->).
    split; [done|]. split; [|split; [|split; [|split]]].
    + apply NoDup_cons. split; [by rewrite Heat|done].
    + by apply Forall_cons.
    + split; [by exists d|done].
    + done.
    + simpl. lia.
  - split; [done|]. split; [|split; [|split; [|split]]].
    + apply NoDup_cons. split; [by rewrite <- onBody_removelast|].
      eapply sublist_NoDup; [done|apply removelast_sublist].
    + apply Forall_cons. split; [done|].
      rewrite Forall_forall in *. intros x Hx. by apply Hin, elem_of_removelast.
    + destruct (head_cons _ _ Hh) as ([|b rest] & ->); [done|].
      change (removelast (h :: b :: rest)) with (h :: removelast (b :: rest)).
      split; [by exists d|].
      by apply (chained_removelast (h :: b :: rest)).
    + split; [done|]. intros ?. done.
    + destruct (head_cons _ _ Hh) as (rest & ->).
      assert (length (removelast (h :: rest)) = length rest) as Hlen.
      { rewrite removelast_firstn_len, length_take. simpl. lia. }
      change (length (move h d :: removelast (h :: rest)))
        with (S (length (removelast (h :: rest)))).
      rewrite Hlen. simpl. lia.
Qed.

Ltac compute_decide :=
  match goal with
  | |- ?P => refine (bool_decide_eq_true_1 P _); vm_compute; reflexivity
  end.

Lemma scenarioA_chained : chained scenarioA_snake.
Proof. repeat split; by exists UP. Qed.

Lemma moveSnake_keeps_body_valid_witness :
  head scenarioA_snake = Some (mkPoint 2 2) /\
  NoDup scenarioA_snake /\ Forall inBounds scenarioA_snake /\
  chained scenarioA_snake /\ (scenarioA_food ∉ scenarioA_snake) /\
  moveSnake true DOWN scenarioA_food scenarioA_snake
  = Ok (Advanced UP [mkPoint 2 1; mkPoint 2 2; mkPoint 2 3] false) /\
  (head [mkPoint 2 1; mkPoint 2 2; mkPoint 2 3] = Some (move (mkPoint 2 2) UP) /\
   NoDup [mkPoint 2 1; mkPoint 2 2; mkPoint 2 3] /\
   Forall inBounds [mkPoint 2 1; mkPoint 2 2; mkPoint 2 3] /\
   chained [mkPoint 2 1; mkPoint 2 2; mkPoint 2 3] /\
   (false = true <-> (move (mkPoint 2 2) UP = scenarioA_food)) /\
   length [mkPoint 2 1; mkPoint 2 2; mkPoint 2 3]
   = (length scenarioA_snake + 0)%nat).
Proof.
  assert (NoDup scenarioA_snake) as Hnd
    by compute_decide.
  assert (Forall inBounds scenarioA_snake) as Hin
    by compute_decide.
  assert (scenarioA_food ∉ scenarioA_snake) as Hfood
    by compute_decide.
  assert (moveSnake true DOWN scenarioA_food scenarioA_snake
          = Ok (Advanced UP [mkPoint 2 1; mkPoint 2 2; mkPoint 2 3] false)) as Hstep
    by (by vm_compute).
  split; [reflexivity|]. split; [exact Hnd|]. split; [exact Hin|].
  split; [exact scenarioA_chained|]. split; [exact Hfood|]. split; [exact Hstep|].
  exact (moveSnake_keeps_body_valid true DOWN scenarioA_food scenarioA_snake
           (mkPoint 2 2) UP [mkPoint 2 1; mkPoint 2 2; mkPoint 2 3] false
           eq_refl Hnd Hin scenarioA_chained Hfood Hstep).
Defined.

(** X14: a direction request never turns the snake back on itself: the
    direction kept after [handleDirectionChange] is never the opposite of the
    current one; with the autopilot off and the game running a request that
    is not the opposite is taken, and otherwise the direction is left as it
    is. *)
Theorem handleDirectionChange_never_reverses (isAutoMode : bool)
    (status : GameStatus) (currentDir newDir : Direction) :
  handleDirectionChange isAutoMode status currentDir newDir <> opposite currentDir /\
  handleDirectionChange isAutoMode status currentDir newDir =
    (if negb isAutoMode && bool_decide (status = PLAYING)
        && negb (bool_decide (newDir = opposite currentDir))
     then newDir else currentDir).
Proof.
  unfold handleDirectionChange.
  destruct isAutoMode, status, currentDir, newDir; by vm_compute.
Qed.

(** ** The earlier variant of the file *)

Lemma getPath_v1_loop_eq target obstacles fuel : forall queue visited,
  getPath_v1_loop fuel target obstacles queue visited =
  getPath_loop fuel target (setOfPoints obstacles) queue visited.
Proof.
  induction fuel as [|fuel IH]; intros [|[p path] rest] visited;
    cbn [getPath_v1_loop getPath_loop]; try done.
  destruct (isSamePoint p target); [done|].
  change (getNeighbors_v1 p obstacles) with (getNeighbors p (setOfPoints obstacles)).
  destruct (fold_left _ _ _) as [q' v']. apply IH.
Qed.

Lemma getPath_v1_eq start target obstacles :
  getPath_v1 start target obstacles = getPath start target (setOfPoints obstacles).
Proof.
  unfold getPath_v1. rewrite getPath_v1_loop_eq.
  with_strategy transparent [getPath] (unfold getPath). done.
Qed.

Lemma getAccessibleAreaSize_v1_eq start obstacles :
  getAccessibleAreaSize_v1 start obstacles =
  getAccessibleAreaSize start (setOfPoints obstacles).
Proof.
  with_strategy transparent [getAccessibleAreaSize] (unfold getAccessibleAreaSize).
  done.
Qed.

(** X15: the helpers of the earlier variant, which take the obstacles as
    an array, compute what the later helpers compute on the set of that
    array. *)
Theorem v1_helpers_agree (start target : Point) (obstacles : list Point) :
  getNeighbors_v1 start obstacles = getNeighbors start (setOfPoints obstacles) /\
  getPath_v1 start target obstacles = getPath start target (setOfPoints obstacles) /\
  getAccessibleAreaSize_v1 start obstacles =
    getAccessibleAreaSize start (setOfPoints obstacles).
Proof.
  split; [done|]. split; [apply getPath_v1_eq|apply getAccessibleAreaSize_v1_eq].
Qed.

Lemma elem_of_setOfPoints c l : pKey c ∈ setOfPoints l <-> c ∈ l.
Proof.
  unfold setOfPoints. rewrite elem_of_list_to_set, list_elem_of_fmap. split.
  - intros (c' & Hk & Hin). by apply pKey_inj in Hk as ->.
  - intros Hin. by exists c.
Qed.

Lemma free_tailless_legal snake c :
  free (setOfPoints (slice_0_m1 snake)) c <-> legal snake c.
Proof.
  unfold free, legal.
  by rewrite elem_of_setOfPoints, slice_0_m1_removelast, onBody_removelast.
Qed.

Lemma free_body_legal snake c : free (setOfPoints snake) c -> legal snake c.
Proof.
  intros [Hb Hin]. split; [done|]. rewrite onBody_removelast.
  intros Hc%elem_of_removelast. by apply Hin, elem_of_setOfPoints.
Qed.

Lemma getPath_first_step start goal obs d path :
  getPath start goal obs = Some (d :: path) -> free obs (move start d).
Proof. intros [[[Hf _] _] _]%getPath_Some. done. Qed.

Lemma emergency_v1_loop_spec obstacles neighbors : forall best maxSpace,
  emergency_v1_loop obstacles neighbors (snd <$> best) maxSpace =
  snd <$> pick_max
            (fun nd => getAccessibleAreaSize (fst nd) (setOfPoints obstacles))
            neighbors best maxSpace.
Proof.
  induction neighbors as [|[n d] neighbors IH]; intros best maxSpace; [done|].
  cbn [emergency_v1_loop pick_max fst]. rewrite getAccessibleAreaSize_v1_eq.
  destruct (_ >? _); [apply (IH (Some (n, d)))|apply IH].
Qed.

Lemma getNextAutoMove_v1_result snake food h :
  head snake = Some h ->
  exists r, getNextAutoMove_v1 snake food = Ok r /\
    match r with
    | Some d => legal snake (move h d)
    | None => forall d, ~ legal snake (move h d)
    end.
Proof.
  intros (rest & Hsnake)%head_cons. unfold getNextAutoMove_v1.
  replace (index snake 0) with (Ok h) by (by rewrite Hsnake).
  rewrite (index_last snake h) by (by rewrite Hsnake).
  cbn [mbind result_bind]. rewrite !getPath_v1_eq.
  assert (forall dirs,
            getPath h (List.last snake h) (setOfPoints (slice_0_m1 snake)) = dirs ->
            exists r,
              match dirs with
              | Some (d :: _) => Ok (Some d)
              | _ => Ok (emergency_v1_loop (slice_0_m1 snake)
                           (getNeighbors_v1 h (slice_0_m1 snake)) None (-1))
              end = Ok r /\
              match r with
              | Some d => legal snake (move h d)
              | None => forall d, ~ legal snake (move h d)
              end) as Hrest.
  { intros dirs Hdirs.
    assert (exists r,
              emergency_v1_loop (slice_0_m1 snake)
                (getNeighbors_v1 h (slice_0_m1 snake)) None (-1) = r /\
              match r with
              | Some d => legal snake (move h d)
              | None => forall d, ~ legal snake (move h d)
              end) as (r & Hr & Hlegal).
    { change (@None Direction) with (snd <$> (@None (Point * Direction))).
      rewrite emergency_v1_loop_spec.
      change (getNeighbors_v1 h (slice_0_m1 snake))
        with (getNeighbors h (setOfPoints (slice_0_m1 snake))).
      destruct (decide (getNeighbors h (setOfPoints (slice_0_m1 snake)) = []))
        as [Hnil|Hne].
      - rewrite Hnil. eexists. split; [done|]. simpl.
        intros d Hd%free_tailless_legal.
        assert ((move h d, d) ∈ getNeighbors h (setOfPoints (slice_0_m1 snake)))
          as Hin by (by apply getNeighbors_spec).
        rewrite Hnil in Hin. by apply elem_of_nil in Hin.
      - destruct (pick_max_nonempty
                    (fun nd => getAccessibleAreaSize (fst nd)
                                 (setOfPoints (slice_0_m1 snake))) _ Hne)
          as ([n d] & -> & Hmax).
        { intros y _. apply getAccessibleAreaSize_pos. }
        eexists. split; [done|]. simpl.
        apply first_max_in_elem, getNeighbors_spec in Hmax as [-> Hf].
        by apply free_tailless_legal. }
    destruct dirs as [[|d ?]|]; try (exists r; by rewrite Hr).
    exists (Some d). split; [done|].
    by apply free_tailless_legal, (getPath_first_step _ _ _ _ _ Hdirs). }
  cbv zeta.
  destruct (getPath h food (setOfPoints snake)) as [[|d p]|] eqn:Hfood;
    cbn [mbind result_bind]; cbv beta iota; try (by apply Hrest).
  rewrite (index_last (move h d :: slice_0_m1 snake) h) by done.
  cbn [mbind result_bind]. rewrite getPath_v1_eq.
  destruct (getPath (move h d) _ _); cbn [mbind result_bind]; cbv beta iota;
    [|by apply Hrest].
  exists (Some d). split; [done|].
  by apply free_body_legal, (getPath_first_step _ _ _ _ _ Hfood).
Qed.

(** X16: the earlier policy is legal and complete on every non-empty body:
    it does not throw, a returned direction leads the head to a cell on the
    board that no body cell other than the tail occupies, and it returns no
    direction exactly when no such cell exists. *)
Theorem getNextAutoMove_v1_legal (snake : list Point) (food h : Point) :
  head snake = Some h ->
  (exists r, getNextAutoMove_v1 snake food = Ok r) /\
  (forall d, getNextAutoMove_v1 snake food = Ok (Some d) -> legal snake (move h d)) /\
  (getNextAutoMove_v1 snake food = Ok None <-> forall d, ~ legal snake (move h d)).
Proof.
  intros Hh. destruct (getNextAutoMove_v1_result snake food h Hh) as (r & Hr & Hl).
  rewrite Hr. split; [by exists r|]. split.
  - intros d [= ->]. done.
  - split.
    + intros [= ->]. done.
    + intros Hnone. destruct r as [d|]; [|done]. by destruct (Hnone d).
Qed.

Lemma getNextAutoMove_v1_legal_witness :
  head scenarioA_snake = Some (mkPoint 2 2) /\
  (exists r, getNextAutoMove_v1 scenarioA_snake scenarioA_food = Ok r) /\
  (forall d, getNextAutoMove_v1 scenarioA_snake scenarioA_food = Ok (Some d) ->
             legal scenarioA_snake (move (mkPoint 2 2) d)) /\
  (getNextAutoMove_v1 scenarioA_snake scenarioA_food = Ok None <->
   forall d, ~ legal scenarioA_snake (move (mkPoint 2 2) d)).
Proof.
  split; [reflexivity|].
  exact (getNextAutoMove_v1_legal scenarioA_snake scenarioA_food (mkPoint 2 2) eq_refl).
Defined.

(** ** The game step without the autopilot, and the comment log *)

(** X17: with the autopilot off, a step of a non-empty snake advances in
    the current direction exactly when the cell ahead is on the board and not
    occupied by a body cell other than the tail; it ends on the wall exactly
    when that cell is off the board, and on the body exactly when it is on
    the board and occupied.  It never reports a trapped autopilot. *)
Theorem manual_step_survives_iff_legal (cd : Direction) (food : Point)
    (prevSnake : list Point) (h : Point) :
  head prevSnake = Some h ->
  ((exists newSnake ate,
      moveSnake false cd food prevSnake = Ok (Advanced cd newSnake ate))
   <-> legal prevSnake (move h cd)) /\
  (moveSnake false cd food prevSnake = Ok (GameOver HitWall)
   <-> ~ inBounds (move h cd)) /\
  (moveSnake false cd food prevSnake = Ok (GameOver SelfCollision)
   <-> inBounds (move h cd) /\ onBody prevSnake (move h cd)) /\
  moveSnake false cd food prevSnake <> Ok (GameOver Trapped) /\
  moveSnake false cd food prevSnake <> TypeError.
Proof.
  intros (rest & ->)%head_cons. unfold moveSnake, legal.
  cbn [mbind result_bind]. change ((h :: rest) !! 0%nat) with (Some h).
  cbv beta iota zeta.
  rewrite <- (outOfBounds_false (move h cd)), <- isSelfCollision_onBody.
  destruct (outOfBounds _ _); [repeat split; naive_solver|].
  destruct (isSelfCollisionFrom _ _ _ _); [repeat split; naive_solver|].
  destruct (_ && _); repeat split; naive_solver.
Qed.

Lemma manual_step_survives_iff_legal_witness :
  head scenarioA_snake = Some (mkPoint 2 2) /\
  ((exists newSnake ate,
      moveSnake false LEFT scenarioA_food scenarioA_snake
      = Ok (Advanced LEFT newSnake ate))
   <-> legal scenarioA_snake (move (mkPoint 2 2) LEFT)) /\
  (moveSnake false LEFT scenarioA_food scenarioA_snake = Ok (GameOver HitWall)
   <-> ~ inBounds (move (mkPoint 2 2) LEFT)) /\
  (moveSnake false LEFT scenarioA_food scenarioA_snake = Ok (GameOver SelfCollision)
   <-> inBounds (move (mkPoint 2 2) LEFT) /\
       onBody scenarioA_snake (move (mkPoint 2 2) LEFT)) /\
  moveSnake false LEFT scenarioA_food scenarioA_snake <> Ok (GameOver Trapped) /\
  moveSnake false LEFT scenarioA_food scenarioA_snake <> TypeError.
Proof.
  split; [reflexivity|].
  exact (manual_step_survives_iff_legal LEFT scenarioA_food scenarioA_snake
           (mkPoint 2 2) eq_refl).
Defined.

(** X18: the comment log keeps the newest entry last, holds at most 20
    entries, and drops only the oldest ones: it is the end of the previous
    log followed by the new entry. *)
Theorem addComment_bounded {A} (prev : list A) (entry : A) :
  length (addComment prev entry) = Nat.min (length prev + 1) 20 /\
  last (addComment prev entry) = Some entry /\
  addComment prev entry `suffix_of` (prev ++ [entry]).
Proof.
  unfold addComment, slice_last. split; [|split].
  - rewrite length_app, length_drop. simpl. lia.
  - apply last_snoc.
  - exists (take (length prev - 19) prev).
    by rewrite app_assoc, take_drop.
Qed.
